(** * Word-frequency engine of learner-platform: a shallow embedding

    The development follows the TypeScript sources
      - [src/utils/stemmer.ts]                      (module [Stemmer]),
      - [src/utils/textAnalyzer.ts]                 (module [TextAnalyzer]),
      - [src/workers/frequencyAnalyzer.worker.ts]   (module [Worker]),
      - [src/services/wordFrequencyService.ts]      (module [Service]).

    A JavaScript string is modelled as the list of its code units, taken in
    the range 0..255 (the Latin-1 block), so that [toLowerCase], [\w], [\s]
    and [\b] are the exact restrictions of the ECMAScript operations to that
    range. *)

From Stdlib Require Import Ascii String List Arith ZArith Bool Lia Permutation Sorted DecimalString.
From stdpp Require Import gmap strings list.
Import ListNotations.

Set Default Proof Using "Type".

(** ** JavaScript strings *)

Definition jsstring := list ascii.

Definition lit (s : string) : jsstring := list_ascii_of_string s.
Coercion lit : string >-> jsstring.

Module Js.

Definition code (c : ascii) : nat := nat_of_ascii c.

Definition inRange (lo hi : nat) (c : ascii) : bool :=
  (lo <=? code c) && (code c <=? hi).

Definition isUpperAZ (c : ascii) : bool := inRange 65 90 c.
Definition isLowerAZ (c : ascii) : bool := inRange 97 122 c.
Definition isDigit (c : ascii) : bool := inRange 48 57 c.

(** [[a-zA-Z]] *)
Definition isLetter (c : ascii) : bool := isUpperAZ c || isLowerAZ c.

(** [\w] is [[A-Za-z0-9_]]. *)
Definition isWordChar (c : ascii) : bool :=
  isLetter c || isDigit c || (code c =? 95).

(** [\s] below U+0100: TAB, LF, VT, FF, CR, SPACE and NBSP.  [trim] strips
    the same set. *)
Definition isSpace (c : ascii) : bool :=
  inRange 9 13 c || (code c =? 32) || (code c =? 160).

(** Line terminators below U+0100; [.] does not match them. *)
Definition isLineTerminator (c : ascii) : bool :=
  (code c =? 10) || (code c =? 13).

(** Upper-case letters below U+0100: A-Z, and U+00C0..U+00DE without the
    multiplication sign U+00D7. *)
Definition hasLowerForm (c : ascii) : bool :=
  isUpperAZ c || (inRange 192 222 c && negb (code c =? 215)).

Definition toLowerChar (c : ascii) : ascii :=
  if hasLowerForm c then ascii_of_nat (code c + 32) else c.

(** [String.prototype.toLowerCase] *)
Definition toLowerCase (s : jsstring) : jsstring := List.map toLowerChar s.

(** [s1 === s2] on strings *)
Definition streq (s1 s2 : jsstring) : bool := bool_decide (s1 = s2).

(** [set.includes(c)] for a one-character string [c] *)
Definition charIn (set : jsstring) (c : ascii) : bool :=
  existsb (Ascii.eqb c) set.

(** [s.endsWith(suf)]; also the test of a literal pattern [/suf$/]. *)
Definition endsWith (s suf : jsstring) : bool :=
  (length suf <=? length s) && streq (drop (length s - length suf) s) suf.

(** [s.slice(0, -1)] *)
Definition dropLast (s : jsstring) : jsstring := take (length s - 1) s.

(** [s[s.length - k]] for [1 <= k <= s.length] *)
Definition fromEnd (k : nat) (s : jsstring) : option ascii :=
  if (k <=? length s) && (1 <=? k) then s !! (length s - k) else None.

Fixpoint dropWhile (p : ascii -> bool) (s : jsstring) : jsstring :=
  match s with
  | [] => []
  | c :: r => if p c then dropWhile p r else s
  end.

(** [String.prototype.trim] *)
Definition trimStart (s : jsstring) : jsstring := dropWhile isSpace s.
Definition trimEnd (s : jsstring) : jsstring := rev (dropWhile isSpace (rev s)).
Definition trim (s : jsstring) : jsstring := trimEnd (trimStart s).

(** [s.split(/[...]+/)] for a character class: the pieces between maximal
    runs of separator characters.  A leading or trailing run yields an
    empty first or last piece, and the empty string yields one empty
    piece. *)
Fixpoint splitRunsFrom (sep : ascii -> bool) (inRun : bool)
         (acc : jsstring) (s : jsstring) : list jsstring :=
  match s with
  | [] => [rev acc]
  | c :: r =>
      if sep c then
        if inRun then splitRunsFrom sep true acc r
        else rev acc :: splitRunsFrom sep true [] r
      else splitRunsFrom sep false (c :: acc) r
  end.

Definition splitRuns (sep : ascii -> bool) (s : jsstring) : list jsstring :=
  splitRunsFrom sep false [] s.

(** [s.split(c)] for a one-character separator string. *)
Fixpoint splitCharFrom (sep : ascii) (acc : jsstring) (s : jsstring)
  : list jsstring :=
  match s with
  | [] => [rev acc]
  | c :: r =>
      if Ascii.eqb c sep then rev acc :: splitCharFrom sep [] r
      else splitCharFrom sep (c :: acc) r
  end.

Definition splitChar (sep : ascii) (s : jsstring) : list jsstring :=
  splitCharFrom sep [] s.

(** [s.replace(/[...]+/g, ' ')]: every maximal run of characters of the
    class becomes one replacement character. *)
Fixpoint collapseRuns (cls : ascii -> bool) (by_ : ascii) (inRun : bool)
         (s : jsstring) : jsstring :=
  match s with
  | [] => []
  | c :: r =>
      if cls c then
        if inRun then collapseRuns cls by_ true r
        else by_ :: collapseRuns cls by_ true r
      else c :: collapseRuns cls by_ false r
  end.

(** [parts.join(sep)] *)
Fixpoint join (sep : jsstring) (parts : list jsstring) : jsstring :=
  match parts with
  | [] => []
  | [p] => p
  | p :: rest => p ++ sep ++ join sep rest
  end.

(** [s.includes(sub)] *)
Fixpoint isPrefixOf (p s : jsstring) : bool :=
  match p, s with
  | [], _ => true
  | a :: p', b :: s' => Ascii.eqb a b && isPrefixOf p' s'
  | _ :: _, [] => false
  end.

Fixpoint includes (s sub : jsstring) : bool :=
  isPrefixOf sub s ||
  match s with
  | [] => false
  | _ :: r => includes r sub
  end.

(** [array.includes(x)] and [set.has(x)] for strings *)
Definition has (l : list jsstring) (x : jsstring) : bool :=
  existsb (streq x) l.

(** [set.add(x)] on a [Set] of strings, kept in insertion order *)
Definition setAdd (set : list jsstring) (x : jsstring) : list jsstring :=
  if has set x then set else set ++ [x].

(** [array.slice(start, end)] for [start <= end] *)
Definition slice {A} (l : list A) (start stop : nat) : list A :=
  take (stop - start) (drop start l).

End Js.

(** ** src/utils/stemmer.ts *)

Module Stemmer.
Import Js.

(** [const VOWEL = /[aeiou]/] and [const CONSONANT = /[bcdfghjklmnpqrstvwxyz]/],
    as tests of one character. *)
Definition isVowel (c : ascii) : bool := charIn "aeiou" c.
Definition isConsonant (c : ascii) : bool := charIn "bcdfghjklmnpqrstvwxyz" c.

(** The [condition] field of a rule. *)
Inductive Condition := MGt0 | MGt1 | HasVowelCond | SOrT.

(** A rule [{ pattern: /suffix$/, replacement, condition? }].  Every
    pattern of the tables is a literal suffix anchored at the end, so the
    record keeps the suffix. *)
Record Rule := mkRule {
  pattern : jsstring;
  replacement : jsstring;
  condition : option Condition
}.

Definition rule (p r : string) : Rule := mkRule p r None.
Definition ruleIf (p r : string) (c : Condition) : Rule := mkRule p r (Some c).

Definition step1aRules : list Rule :=
  [ rule "sses" "ss"; rule "ies" "i"; rule "ss" "ss"; rule "s" "" ].

Definition step1bRules : list Rule :=
  [ ruleIf "eed" "ee" MGt0; ruleIf "ed" "" HasVowelCond;
    ruleIf "ing" "" HasVowelCond ].

Definition step1bPost : list Rule :=
  [ rule "at" "ate"; rule "bl" "ble"; rule "iz" "ize" ].

Definition step2Rules : list Rule :=
  [ rule "ational" "ate"; rule "tional" "tion"; rule "enci" "ence";
    rule "anci" "ance"; rule "izer" "ize"; rule "abli" "able";
    rule "alli" "al"; rule "entli" "ent"; rule "eli" "e";
    rule "ousli" "ous"; rule "ization" "ize"; rule "ation" "ate";
    rule "ator" "ate"; rule "alism" "al"; rule "iveness" "ive";
    rule "fulness" "ful"; rule "ousness" "ous"; rule "aliti" "al";
    rule "iviti" "ive"; rule "biliti" "ble" ].

Definition step3Rules : list Rule :=
  [ rule "icate" "ic"; rule "ative" ""; rule "alize" "al";
    rule "iciti" "ic"; rule "ical" "ic"; rule "ful" ""; rule "ness" "" ].

Definition step4Rules : list Rule :=
  [ rule "al" ""; rule "ance" ""; rule "ence" ""; rule "er" "";
    rule "ic" ""; rule "able" ""; rule "ible" ""; rule "ant" "";
    rule "ement" ""; rule "ment" ""; rule "ent" "";
    ruleIf "ion" "" SOrT; rule "ou" ""; rule "ism" ""; rule "ate" "";
    rule "iti" ""; rule "ous" ""; rule "ive" ""; rule "ize" "" ].

(** [trimmed.match(/[aeiou][bcdfghjklmnpqrstvwxyz]/g)]: the number of
    matches found scanning left to right, resuming after each match. *)
Fixpoint countVC (s : jsstring) : nat :=
  match s with
  | a :: ((b :: r') as r) =>
      if isVowel a && isConsonant b then S (countVC r') else countVC r
  | _ => 0
  end.

Definition measure (word : jsstring) : nat :=
  let trimmed := dropWhile isConsonant word in
  countVC trimmed.

Definition hasVowel (word : jsstring) : bool := existsb isVowel word.

Definition endsWithDoubleConsonant (word : jsstring) : bool :=
  if length word <? 2 then false
  else
    match fromEnd 1 word, fromEnd 2 word with
    | Some last, Some secondLast => Ascii.eqb last secondLast && isConsonant last
    | _, _ => false
    end.

Definition cvc (word : jsstring) : bool :=
  if length word <? 3 then false
  else
    match fromEnd 1 word, fromEnd 2 word, fromEnd 3 word with
    | Some last, Some middle, Some third =>
        isConsonant third && isVowel middle && isConsonant last
        && negb (charIn "wxy" last)
    | _, _, _ => false
    end.

(** [word.replace(rule.pattern, '')] when the pattern matches *)
Definition stripSuffix (word suffix : jsstring) : jsstring :=
  take (length word - length suffix) word.

Definition conditionHolds (c : option Condition) (stem : jsstring) : bool :=
  match c with
  | None => true
  | Some MGt0 => 0 <? measure stem
  | Some MGt1 => 1 <? measure stem
  | Some HasVowelCond => hasVowel stem
  | Some SOrT => (1 <? measure stem) && (endsWith stem "s" || endsWith stem "t")
  end.

(** The first rule whose pattern matches and whose condition holds is
    applied; a rule whose condition fails does not stop the scan. *)
Fixpoint applyRules (word : jsstring) (rules : list Rule) : jsstring :=
  match rules with
  | [] => word
  | r :: rest =>
      if endsWith word (pattern r) then
        if conditionHolds (condition r) (stripSuffix word (pattern r))
        then stripSuffix word (pattern r) ++ replacement r
        else applyRules word rest
      else applyRules word rest
  end.

Definition step1bFixup (beforeStep1b stemmed : jsstring) : jsstring :=
  if negb (streq stemmed beforeStep1b) && (1 <? length stemmed) then
    if endsWith stemmed "at" || endsWith stemmed "bl" || endsWith stemmed "iz"
    then applyRules stemmed step1bPost
    else if endsWithDoubleConsonant stemmed
              && negb (match fromEnd 1 stemmed with
                       | Some c => charIn "lsz" c
                       | None => false
                       end)
    then dropLast stemmed
    else if (measure stemmed =? 1) && cvc stemmed
    then stemmed ++ lit "e"
    else stemmed
  else stemmed.

Definition step5 (stemmed : jsstring) : jsstring :=
  if 1 <? measure stemmed then
    if endsWith stemmed "e" then dropLast stemmed else stemmed
  else if (measure stemmed =? 1) && negb (cvc stemmed) && endsWith stemmed "e"
  then dropLast stemmed
  else stemmed.

Definition step5b (stemmed : jsstring) : jsstring :=
  if (1 <? measure stemmed) && endsWithDoubleConsonant stemmed
     && endsWith stemmed "l"
  then dropLast stemmed
  else stemmed.

(** The body of [stemWord] after the length guard and the lower-casing. *)
Definition stemSteps (lowered : jsstring) : jsstring :=
  let stemmed := applyRules lowered step1aRules in
  let beforeStep1b := stemmed in
  let stemmed := applyRules stemmed step1bRules in
  let stemmed := step1bFixup beforeStep1b stemmed in
  let stemmed :=
    if 0 <? measure stemmed then applyRules stemmed step2Rules else stemmed in
  let stemmed :=
    if 0 <? measure stemmed then applyRules stemmed step3Rules else stemmed in
  let stemmed :=
    if 1 <? measure stemmed then applyRules stemmed step4Rules else stemmed in
  let stemmed := step5 stemmed in
  step5b stemmed.

Definition stemWord (word : jsstring) : jsstring :=
  if length word <=? 2 then word
  else stemSteps (toLowerCase word).

(** [export const IRREGULAR_VERBS: Record<string, string>] *)
Definition IRREGULAR_VERBS : list (jsstring * jsstring) :=
  List.map (fun '(k, v) => (lit k, lit v))
  [ ("was", "be"); ("were", "be"); ("been", "be"); ("am", "be"); ("is", "be");
    ("are", "be"); ("had", "have"); ("has", "have"); ("did", "do");
    ("does", "do"); ("done", "do"); ("went", "go"); ("gone", "go");
    ("came", "come"); ("saw", "see"); ("seen", "see"); ("took", "take");
    ("taken", "take"); ("gave", "give"); ("given", "give"); ("got", "get");
    ("gotten", "get"); ("made", "make"); ("said", "say"); ("told", "tell");
    ("thought", "think"); ("brought", "bring"); ("bought", "buy");
    ("caught", "catch"); ("taught", "teach"); ("found", "find");
    ("left", "leave"); ("felt", "feel"); ("kept", "keep"); ("slept", "sleep");
    ("met", "meet"); ("sent", "send"); ("spent", "spend"); ("built", "build");
    ("heard", "hear"); ("held", "hold"); ("lost", "lose"); ("meant", "mean");
    ("paid", "pay"); ("put", "put"); ("read", "read"); ("ran", "run");
    ("sold", "sell"); ("set", "set"); ("shut", "shut"); ("spoke", "speak");
    ("spoken", "speak"); ("stood", "stand"); ("stuck", "stick");
    ("swam", "swim"); ("swum", "swim"); ("threw", "throw");
    ("thrown", "throw"); ("understood", "understand"); ("woke", "wake");
    ("woken", "wake"); ("wore", "wear"); ("worn", "wear"); ("won", "win");
    ("wrote", "write"); ("written", "write") ]%string.

(** What [enhancedStem] returns: a string, or, when the looked-up name is
    one that every object inherits, the inherited value, which is not a
    string. *)
Inductive StemValue :=
| StemString (s : jsstring)
| InheritedValue.

Fixpoint ownProperty (table : list (jsstring * jsstring)) (key : jsstring)
  : option jsstring :=
  match table with
  | [] => None
  | (k, v) :: rest => if streq k key then Some v else ownProperty rest key
  end.

(** The property names of [Object.prototype] that a lower-cased word can
    equal. *)
Definition inheritedNames : list jsstring :=
  List.map lit ["constructor"; "__proto__"]%string.

(** [IRREGULAR_VERBS[key]], when it is truthy.  Every value of the table
    is a non-empty string. *)
Definition lookupIrregular (key : jsstring) : option StemValue :=
  match ownProperty IRREGULAR_VERBS key with
  | Some v => Some (StemString v)
  | None => if existsb (streq key) inheritedNames then Some InheritedValue else None
  end.

Definition enhancedStem (word : jsstring) : StemValue :=
  let lowerWord := toLowerCase word in
  match lookupIrregular lowerWord with
  | Some v => v
  | None => StemString (stemWord word)
  end.

End Stemmer.

(** ** Regular expressions built at run time

    The service builds two patterns from a search term: the term with every
    [*] replaced by [.*], and the term between two [\b].  The fragment
    modelled here covers the patterns that arise from terms made of plain
    characters, [.] and [*]: literal characters, [.], a greedy [*] after a
    character or [.], and the assertion [\b].  A pattern with any other
    metacharacter is reported as [Unsupported]; a [*] with nothing to repeat
    is the constructor's [SyntaxError]. *)

Module RegExp.
Import Js.

Inductive atom := AChar (c : ascii) | AAny.
Inductive node := NAtom (a : atom) | NStar (a : atom) | NWordBoundary.

Inductive compiled :=
| Pattern (ns : list node)
| SyntaxError
| Unsupported.

(** Syntax characters other than [.], [*] and the backslash. *)
Definition isOtherSyntaxChar (c : ascii) : bool := charIn "^$|?+()[]{}/" c.

Definition isBackslash (c : ascii) : bool := code c =? 92.
Definition isStar (c : ascii) : bool := code c =? 42.
Definition isDot (c : ascii) : bool := code c =? 46.

(** Lexical check: the only escape is [\b]. *)
Fixpoint inFragment (s : jsstring) : bool :=
  match s with
  | [] => true
  | c :: r =>
      if isBackslash c then
        match r with
        | b :: r' => Ascii.eqb b "b" && inFragment r'
        | [] => false
        end
      else negb (isOtherSyntaxChar c) && inFragment r
  end.

Definition consNode (n : node) (c : compiled) : compiled :=
  match c with
  | Pattern ns => Pattern (n :: ns)
  | other => other
  end.

Fixpoint parse (s : jsstring) : compiled :=
  match s with
  | [] => Pattern []
  | c :: r =>
      if isBackslash c then
        match r with
        | _ :: r' =>
            match r' with
            | q :: _ => if isStar q then SyntaxError
                        else consNode NWordBoundary (parse r')
            | [] => consNode NWordBoundary (parse r')
            end
        | [] => SyntaxError
        end
      else if isStar c then SyntaxError
      else
        let a := if isDot c then AAny else AChar c in
        match r with
        | q :: r' => if isStar q then consNode (NStar a) (parse r')
                     else consNode (NAtom a) (parse r)
        | [] => consNode (NAtom a) (parse r)
        end
  end.

(** [new RegExp(source, flags)] *)
Definition compile (source : jsstring) : compiled :=
  if inFragment source then parse source else Unsupported.

(** Case folding of the [i] flag: the upper-case form, for the letters
    whose upper-case form lies below U+0100. *)
Definition canonicalize (c : ascii) : ascii :=
  if isLowerAZ c || (inRange 224 254 c && negb (code c =? 247))
  then ascii_of_nat (code c - 32) else c.

Definition atomMatches (ignoreCase : bool) (a : atom) (x : ascii) : bool :=
  match a with
  | AChar c => if ignoreCase then Ascii.eqb (canonicalize c) (canonicalize x)
               else Ascii.eqb c x
  | AAny => negb (isLineTerminator x)
  end.

Definition isWordCharOpt (o : option ascii) : bool :=
  match o with
  | Some c => isWordChar c
  | None => false
  end.

(** The backtracking matcher.  [matchNodes ic ns prev s pos] tries the
    nodes at position [pos], where [s] is the rest of the input and
    [prev] the character before it, and returns the end of the first
    match in backtracking order.  [star k ic a] is the greedy [*]: it
    takes as many characters as it can and gives them back one at a time
    to the continuation [k]. *)
Fixpoint star (k : option ascii -> jsstring -> nat -> option nat)
         (ic : bool) (a : atom) (prev : option ascii) (s : jsstring)
         (pos : nat) {struct s} : option nat :=
  match s with
  | x :: s' =>
      if atomMatches ic a x then
        match star k ic a (Some x) s' (S pos) with
        | Some e => Some e
        | None => k prev s pos
        end
      else k prev s pos
  | [] => k prev s pos
  end.

Fixpoint matchNodes (ic : bool) (ns : list node)
  : option ascii -> jsstring -> nat -> option nat :=
  match ns with
  | [] => fun _ _ pos => Some pos
  | n :: rest =>
      let k := matchNodes ic rest in
      match n with
      | NAtom a => fun _ s pos =>
          match s with
          | x :: s' => if atomMatches ic a x then k (Some x) s' (S pos) else None
          | [] => None
          end
      | NStar a => star k ic a
      | NWordBoundary => fun prev s pos =>
          if xorb (isWordCharOpt prev) (isWordCharOpt (head s))
          then k prev s pos else None
      end
  end.

(** The leftmost match at or after [pos]: its start and its end. *)
Fixpoint searchFrom (ic : bool) (ns : list node) (prev : option ascii)
         (s : jsstring) (pos : nat) : option (nat * nat) :=
  match matchNodes ic ns prev s pos with
  | Some e => Some (pos, e)
  | None =>
      match s with
      | [] => None
      | c :: r => searchFrom ic ns (Some c) r (S pos)
      end
  end.

Definition execAt (ic : bool) (ns : list node) (s : jsstring) (i : nat)
  : option (nat * nat) :=
  searchFrom ic ns (match i with 0 => None | S j => s !! j end) (drop i s) i.

(** [regex.test(s)] for a regex without the [g] flag. *)
Definition test (ic : bool) (ns : list node) (s : jsstring) : bool :=
  match execAt ic ns s 0 with Some _ => true | None => false end.

(** [regex.test(s)] for a regex with the [g] flag: the search starts at
    [lastIndex]; a match moves [lastIndex] to its end, a failure resets
    it to 0.  The result is the answer and the new [lastIndex]. *)
Definition testGlobal (ic : bool) (ns : list node) (lastIndex : nat)
           (s : jsstring) : bool * nat :=
  if length s <? lastIndex then (false, 0)
  else
    match execAt ic ns s lastIndex with
    | Some (_, e) => (true, e)
    | None => (false, 0)
    end.

End RegExp.

(** ** src/utils/textAnalyzer.ts *)

Module TextAnalyzer.
Import Js.

Definition STOP_WORDS : list jsstring :=
  List.map lit
  [ "a"; "an"; "the";
    "in"; "on"; "at"; "by"; "for"; "with"; "without"; "to"; "from"; "of"; "about";
    "under"; "over"; "through"; "between"; "among"; "during"; "before"; "after";
    "above"; "below"; "up"; "down"; "into"; "onto"; "upon"; "within"; "against";
    "and"; "or"; "but"; "nor"; "so"; "yet"; "because"; "although"; "while";
    "since"; "unless"; "until"; "if"; "when"; "where"; "why"; "how";
    "i"; "you"; "he"; "she"; "it"; "we"; "they"; "me"; "him"; "her"; "us"; "them";
    "my"; "your"; "his"; "her"; "its"; "our"; "their"; "mine"; "yours"; "ours";
    "this"; "that"; "these"; "those"; "who"; "whom"; "whose"; "which"; "what";
    "am"; "is"; "are"; "was"; "were"; "be"; "been"; "being";
    "have"; "has"; "had"; "do"; "does"; "did"; "will"; "would";
    "shall"; "should"; "may"; "might"; "can"; "could"; "must";
    "not"; "no"; "yes"; "very"; "too"; "so"; "just"; "only"; "also";
    "here"; "there"; "now"; "then"; "today"; "tomorrow"; "yesterday";
    "always"; "never"; "sometimes"; "often"; "usually"; "again";
    "one"; "two"; "three"; "four"; "five"; "six"; "seven"; "eight"; "nine"; "ten";
    "first"; "second"; "third"; "last"; "next"; "another"; "other"; "some"; "many";
    "few"; "more"; "most"; "less"; "all"; "any"; "each"; "every"; "both"; "either"
  ]%string.

Definition isApostrophe (c : ascii) : bool := code c =? 39.
Definition isQuote (c : ascii) : bool := isApostrophe c || (code c =? 34).

(** [const PUNCTUATION = /[^\w\s']|_/g] *)
Definition isPunctuation (c : ascii) : bool :=
  negb (isWordChar c || isSpace c || isApostrophe c) || (code c =? 95).

(** [text.replace(/\r\n/g, '\n')] *)
Fixpoint normalizeLineEndings (s : jsstring) : jsstring :=
  match s with
  | [] => []
  | c :: r =>
      match r with
      | d :: r' =>
          if (code c =? 13) && (code d =? 10) then d :: normalizeLineEndings r'
          else c :: normalizeLineEndings r
      | [] => [c]
      end
  end.

Definition space : ascii := " "%char.

Definition cleanText (text : jsstring) : jsstring :=
  let t := normalizeLineEndings text in
  let t := List.map (fun c => if code c =? 9 then space else c) t in
  let t := List.map (fun c => if isPunctuation c then space else c) t in
  let t := collapseRuns isSpace space false t in
  trim t.

(** [cleanWord]: one leading and one trailing quote character (single or
    double) are removed, then one trailing character of [.,;:!?], then the
    result is trimmed. *)
Definition stripLeading (p : ascii -> bool) (s : jsstring) : jsstring :=
  match s with
  | c :: r => if p c then r else s
  | [] => []
  end.

Definition stripTrailing (p : ascii -> bool) (s : jsstring) : jsstring :=
  match fromEnd 1 s with
  | Some c => if p c then dropLast s else s
  | None => s
  end.

Definition cleanWord (word : jsstring) : jsstring :=
  let w := stripTrailing isQuote (stripLeading isQuote word) in
  let w := stripTrailing (charIn ".,;:!?") w in
  trim w.

(** [const VALID_WORD = /^[a-zA-Z][a-zA-Z']*[a-zA-Z]$|^[a-zA-Z]$/] *)
Definition VALID_WORD (w : jsstring) : bool :=
  match w with
  | [] => false
  | [c] => isLetter c
  | c :: r =>
      isLetter c
      && forallb (fun x => isLetter x || isApostrophe x) (dropLast r)
      && match fromEnd 1 r with Some l => isLetter l | None => false end
  end.

(** [const CONTRACTION = /^(n't|'re|'ve|'ll|'d|'s|'m)$/i] *)
Definition CONTRACTION (w : jsstring) : bool :=
  has (List.map lit ["n't"; "'re"; "'ve"; "'ll"; "'d"; "'s"; "'m"]%string)
      (toLowerCase w).

(** [const HYPHENATED = /^[a-zA-Z]+-[a-zA-Z]+$/] *)
Definition HYPHENATED (w : jsstring) : bool :=
  match splitChar "-"%char w with
  | [l; r] => negb (streq l []) && negb (streq r [])
              && forallb isLetter l && forallb isLetter r
  | _ => false
  end.

Definition isValidWord (word : jsstring) (minLength : nat)
           (includeStopWords : bool) : bool :=
  if length word <? minLength then false
  else if CONTRACTION word then false
  else if negb (VALID_WORD word) && negb (HYPHENATED word) then false
  else if negb includeStopWords && has STOP_WORDS (toLowerCase word) then false
  else true.

Definition nonEmpty (s : jsstring) : bool := negb (streq s []).

Definition splitIntoSentences (text : jsstring) : list jsstring :=
  List.filter nonEmpty (List.map trim (splitRuns (charIn ".!?") text)).

Definition getWordContext (sentence : jsstring) (wordIndex windowSize : nat)
  : jsstring :=
  let words := splitRuns isSpace sentence in
  let start := wordIndex - windowSize in
  let stop := Nat.min (length words) (wordIndex + windowSize + 1) in
  join " " (slice words start stop).

Record WordInfo := mkWordInfo {
  wi_word : jsstring;
  wi_position : nat;
  wi_sentence : nat;
  wi_context : jsstring
}.

(** The value of the union type [string[] | WordInfo[]]. *)
Inductive Extracted :=
| Words (ws : list jsstring)
| Infos (infos : list WordInfo).

Record Options := mkOptions {
  includeStopWords : bool;
  minLength : nat;
  includePositions : bool
}.

(** [options || {}] with the defaults of the destructuring. *)
Definition defaultOptions : Options := mkOptions false 1 false.

Definition boolToString (b : bool) : jsstring :=
  if b then lit "true" else lit "false".

(** The decimal form of a length (as the template literal prints a number
    below 10^21). *)
Definition natToString (n : nat) : jsstring :=
  lit (NilZero.string_of_uint (Nat.to_uint n)).

Definition cacheKey (text : jsstring) (o : Options) : jsstring :=
  lit "words_" ++ take 100 text ++ lit "_" ++ boolToString (includeStopWords o)
    ++ lit "_" ++ natToString (minLength o)
    ++ lit "_" ++ boolToString (includePositions o).

(** The words of one sentence that pass [isValidWord], with their index in
    the sentence. *)
Fixpoint sentenceWords (o : Options) (wordIndex : nat) (words : list jsstring)
  : list (nat * jsstring) :=
  match words with
  | [] => []
  | word :: rest =>
      let cleaned := cleanWord word in
      if isValidWord cleaned (minLength o) (includeStopWords o)
      then (wordIndex, toLowerCase cleaned) :: sentenceWords o (S wordIndex) rest
      else sentenceWords o (S wordIndex) rest
  end.

Fixpoint collect (o : Options) (sentenceIndex globalPosition : nat)
         (sentences : list jsstring) : list WordInfo :=
  match sentences with
  | [] => []
  | sentence :: rest =>
      let words := List.filter nonEmpty (splitRuns isSpace sentence) in
      List.map (fun '(wordIndex, w) =>
                  mkWordInfo w (globalPosition + wordIndex) sentenceIndex
                             (getWordContext sentence wordIndex 3))
               (sentenceWords o 0 words)
      ++ collect o (S sentenceIndex) (globalPosition + length words) rest
  end.

(** What [extractWords] computes when the cache has no entry. *)
Definition computeWords (text : jsstring) (o : Options) : Extracted :=
  let sentences := splitIntoSentences (cleanText text) in
  let infos := collect o 0 0 sentences in
  if includePositions o then Infos infos
  else Words (List.map wi_word infos).

(** The instance field [private cache = new Map<string, any>()]. *)
Abbreviation Cache := (gmap jsstring Extracted).

(** [extractWords(text, options)]: the result and the cache after the
    call. *)
Definition extractWords (cache : Cache) (text : jsstring) (o : Options)
  : Extracted * Cache :=
  let key := cacheKey text o in
  match cache !! key with
  | Some hit => (hit, cache)
  | None =>
      let result := computeWords text o in
      (result, <[key := result]> cache)
  end.

(** [extractWords(text) as string[]] *)
Definition asWords (e : Extracted) : list jsstring :=
  match e with
  | Words ws => ws
  | Infos infos => List.map wi_word infos
  end.

End TextAnalyzer.

(** ** Shared data: articles, word entries, insertion-ordered maps *)

(** The fields of an article that the engine reads. *)
Record Article := mkArticle {
  id : jsstring;
  title : jsstring;
  content : jsstring;
  category : jsstring
}.

(** [interface WordEntry] *)
Record WordEntry := mkWordEntry {
  word : jsstring;
  frequency : nat;
  articles : list jsstring;
  stemmed : jsstring
}.

(** A JavaScript [Map] with string keys.  Its iteration order is the order
    in which the keys were first set, and the aggregation output depends on
    it, so the map is an association list in insertion order. *)
Module JsMap.
Import Js.

Definition t (V : Type) := list (jsstring * V).

Fixpoint get {V} (m : t V) (k : jsstring) : option V :=
  match m with
  | [] => None
  | (k', v) :: r => if streq k' k then Some v else get r k
  end.

(** [m.set(k, v)]: an existing key keeps its place. *)
Fixpoint set {V} (m : t V) (k : jsstring) (v : V) : t V :=
  match m with
  | [] => [(k, v)]
  | (k', v') :: r => if streq k' k then (k, v) :: r else (k', v') :: set r k v
  end.

Definition values {V} (m : t V) : list V := List.map snd m.

End JsMap.

(** [array.sort((a, b) => key(b) - key(a))]: a stable sort, descending. *)
Fixpoint insertDesc {A} (key : A -> nat) (x : A) (l : list A) : list A :=
  match l with
  | [] => [x]
  | y :: r => if key x <? key y then y :: insertDesc key x r else x :: l
  end.

Definition sortDesc {A} (key : A -> nat) (l : list A) : list A :=
  List.fold_right (insertDesc key) [] l.

(** [words.reduce((sum, w) => sum + w.frequency, 0)] *)
Definition sumFrequency (ws : list WordEntry) : nat :=
  List.fold_left (fun sum w => sum + frequency w) ws 0.

(** ** src/workers/frequencyAnalyzer.worker.ts *)

Module Worker.
Import Js.

Definition STOP_WORDS : list jsstring :=
  List.map lit
  [ "the"; "a"; "an"; "and"; "or"; "but"; "in"; "on"; "at"; "to"; "for"; "of"; "with"; "by";
    "is"; "are"; "was"; "were"; "be"; "been"; "being"; "have"; "has"; "had"; "do"; "does"; "did";
    "will"; "would"; "could"; "should"; "may"; "might"; "can"; "shall"; "must";
    "i"; "you"; "he"; "she"; "it"; "we"; "they"; "me"; "him"; "her"; "us"; "them";
    "my"; "your"; "his"; "her"; "its"; "our"; "their"; "this"; "that"; "these"; "those"
  ]%string.

(** [WorkerTextProcessor.cleanText] *)
Definition cleanText (text : jsstring) : jsstring :=
  let t := toLowerCase text in
  let t := List.map (fun c => if TextAnalyzer.isPunctuation c
                              then TextAnalyzer.space else c) t in
  let t := collapseRuns isSpace TextAnalyzer.space false t in
  trim t.

(** [WorkerTextProcessor.extractWords] *)
Definition extractWords (text : jsstring) : list jsstring :=
  List.filter
    (fun w => (2 <=? length w) && TextAnalyzer.VALID_WORD w
              && negb (has STOP_WORDS w))
    (List.map trim (splitChar TextAnalyzer.space (cleanText text))).

Record Processed := mkProcessed {
  articleId : jsstring;
  words : list jsstring;
  wordCount : nat
}.

(** [WorkerTextProcessor.processArticle] *)
Definition processArticle (article : Article) : Processed :=
  let ws := extractWords (content article) in
  mkProcessed (id article) ws (length ws).

Definition BATCH_SIZE : nat := 10.

(** The values of [i] in [for (let i = 0; i < items.length; i += BATCH_SIZE)]. *)
Definition batchStarts (n : nat) : list nat :=
  List.map (fun k => k * BATCH_SIZE) (seq 0 ((n + (BATCH_SIZE - 1)) / BATCH_SIZE)).

(** [BatchProcessor.processBatches]: the results, batch after batch, and
    the progress reports as pairs (processed, total), standing for
    [processed / total * 100]. *)
Definition processBatches {T R} (items : list T) (processor : T -> R)
  : list R * list (nat * nat) :=
  let batches :=
    List.map (fun i => slice items i (i + BATCH_SIZE))
             (batchStarts (length items)) in
  let results := List.concat (List.map (List.map processor) batches) in
  let progress :=
    List.map (fun i => (Nat.min (i + BATCH_SIZE) (length items), length items))
             (batchStarts (length items)) in
  (results, progress).

(** The value type of [private wordFrequency]; the [Set] of article ids is
    kept in insertion order. *)
Record Counter := mkCounter {
  c_frequency : nat;
  c_articles : list jsstring;
  c_stemmed : jsstring
}.

Definition countWord (articleId : jsstring) (wordFrequency : JsMap.t Counter)
           (word : jsstring) : JsMap.t Counter :=
  let stemmed := Stemmer.stemWord word in
  match JsMap.get wordFrequency word with
  | Some entry =>
      JsMap.set wordFrequency word
                (mkCounter (S (c_frequency entry))
                           (setAdd (c_articles entry) articleId)
                           (c_stemmed entry))
  | None => JsMap.set wordFrequency word (mkCounter 1 [articleId] stemmed)
  end.



(** [FrequencyAnalyzer.optimizeWordList] *)
Definition optimizeWordList (ws : list WordEntry) (maxWords : nat)
  : list WordEntry :=
  take maxWords
       (List.filter (fun w => (1 <? frequency w) || (1 <? length (articles w))) ws).


End Worker.

(** ** src/services/wordFrequencyService.ts *)

(** How a call ends.  [Pending] is a promise that is never settled;
    [NotModelled] marks a run-time pattern outside the fragment of
    [RegExp]. *)
Inductive outcome (A : Type) :=
| Done (a : A)
| Thrown (msg : jsstring)
| Pending
| NotModelled.
Arguments Done {A} a.
Arguments Thrown {A} msg.
Arguments Pending {A}.
Arguments NotModelled {A}.

#[global] Instance outcome_bind : MBind outcome := fun A B f o =>
  match o with
  | Done a => f a
  | Thrown m => Thrown m
  | Pending => Pending
  | NotModelled => NotModelled
  end.

(** [try { ... } catch (error) { throw new Error(msg) }] *)
Definition rethrow {A} (msg : jsstring) (o : outcome A) : outcome A :=
  match o with
  | Thrown _ => Thrown msg
  | other => other
  end.

Module Service.
Import Js.

(** [const stopWords]: the same words as the worker's [STOP_WORDS]. *)
Definition stopWords : list jsstring := Worker.STOP_WORDS.

Inductive Mode := Intelligent | Exact.

Record Filters := mkFilters {
  f_minLength : nat;
  excludeCommon : bool;
  partOfSpeech : list jsstring;
  f_articles : list jsstring
}.

Record SearchOptions := mkSearchOptions {
  query : jsstring;
  mode : Mode;
  filters : Filters
}.

Record ArticleMatch := mkArticleMatch {
  am_articleId : jsstring;
  am_title : jsstring;
  am_matches : nat;
  am_contexts : list jsstring
}.

Record SearchResult := mkSearchResult {
  sr_word : jsstring;
  sr_frequency : nat;
  sr_articles : list ArticleMatch;
  sr_contexts : list jsstring
}.

(** How the worker answers the [analyze_articles] message, as seen by
    [processWithWorker]: the [analysis_complete] data, an [error] message,
    the 30 s timeout, or progress reports (which clear the timeout) and
    then nothing. *)
Inductive WorkerReply :=
| AnalysisComplete (data : list WordEntry)
| WorkerError (error : jsstring)
| WorkerTimeout
| WorkerStalls.

(** The instance state: [wordCache], whether [this.worker] is set, and the
    cache of the [textAnalyzer] singleton that [processArticles] calls. *)
Record State := mkState {
  wordCache : gmap jsstring (list WordEntry);
  worker : bool;
  analyzerCache : TextAnalyzer.Cache
}.

Definition processWithWorker (st : State) (reply : WorkerReply)
  : outcome (list WordEntry) :=
  if negb (worker st) then Thrown "Worker not available"
  else
    match reply with
    | AnalysisComplete data => Done data
    | WorkerError error => Thrown error
    | WorkerTimeout => Thrown "Worker timeout"
    | WorkerStalls => Pending
    end.

Definition countWord (articleId : jsstring) (wordFrequency : JsMap.t WordEntry)
           (w : jsstring) : JsMap.t WordEntry :=
  let cleanWord := toLowerCase w in
  let stem := Stemmer.stemWord cleanWord in
  match JsMap.get wordFrequency cleanWord with
  | Some entry =>
      JsMap.set wordFrequency cleanWord
        (mkWordEntry (word entry) (S (frequency entry))
           (if has (articles entry) articleId
            then articles entry else articles entry ++ [articleId])
           (stemmed entry))
  | None =>
      JsMap.set wordFrequency cleanWord (mkWordEntry cleanWord 1 [articleId] stem)
  end.

(** One round of [articles.forEach]: the words of the article, from the
    analyzer and its cache, are counted into the map. *)
Definition processArticle (acc : JsMap.t WordEntry * TextAnalyzer.Cache)
           (article : Article) : JsMap.t WordEntry * TextAnalyzer.Cache :=
  let '(wordFrequency, cache) := acc in
  let '(extracted, cache') :=
    TextAnalyzer.extractWords cache (content article) TextAnalyzer.defaultOptions in
  (List.fold_left (countWord (id article)) (TextAnalyzer.asWords extracted)
                  wordFrequency,
   cache').

(** [processArticles]: the sorted entries and the analyzer cache after the
    run. *)
Definition processArticles (cache : TextAnalyzer.Cache) (articles : list Article)
  : list WordEntry * TextAnalyzer.Cache :=
  let '(wordFrequency, cache') := List.fold_left processArticle articles ([], cache) in
  (sortDesc frequency (JsMap.values wordFrequency), cache').

Definition isDoubleQuote (c : ascii) : bool := code c =? 34.

(** The phrase matches of [parseSearchQuery] (a double quote, one or more
    characters other than a double quote, a double quote; flag [g]),
    followed by [phrase.slice(1, -1)]: the contents of the quoted segments.  [inside] holds the characters read
    since the last opening quote. *)
Fixpoint phrases (inside : option jsstring) (s : jsstring) : list jsstring :=
  match s with
  | [] => []
  | c :: r =>
      match inside with
      | None => if isDoubleQuote c then phrases (Some []) r else phrases None r
      | Some acc =>
          if isDoubleQuote c then
            match acc with
            | [] => phrases (Some []) r
            | _ :: _ => rev acc :: phrases None r
            end
          else phrases (Some (c :: acc)) r
      end
  end.

Definition parseSearchQuery (query : jsstring) (mode : Mode) : list jsstring :=
  match phrases None query with
  | (_ :: _) as phraseMatches => phraseMatches
  | [] =>
      if charIn query "*"%char then [query]
      else
        let terms := List.filter TextAnalyzer.nonEmpty (splitRuns isSpace query) in
        match mode with
        | Intelligent =>
            List.concat (List.map (fun term => [term; Stemmer.stemWord term]) terms)
        | Exact => terms
        end
  end.

(** [term.replace(/\*/g, '.*')] *)
Definition expandWildcards (term : jsstring) : jsstring :=
  List.concat (List.map (fun c => if RegExp.isStar c then lit ".*" else [c]) term).

(** [new RegExp(source, flags)] as an outcome. *)
Definition newRegExp (source : jsstring) : outcome (list RegExp.node) :=
  match RegExp.compile source with
  | RegExp.Pattern ns => Done ns
  | RegExp.SyntaxError => Thrown "Invalid regular expression"
  | RegExp.Unsupported => NotModelled
  end.

Definition findWordMatches (term : jsstring) (words : list WordEntry) (mode : Mode)
  : outcome (list WordEntry) :=
  if charIn term "*"%char then
    regex ← newRegExp (expandWildcards term);
    Done (List.filter (fun w => RegExp.test true regex (word w)) words)
  else
    match mode with
    | Exact => Done (List.filter (fun w => streq (word w) (toLowerCase term)) words)
    | Intelligent =>
        Done (List.filter
                (fun w => streq (word w) (toLowerCase term)
                          || streq (stemmed w) (Stemmer.stemWord (toLowerCase term))
                          || includes (word w) (toLowerCase term))
                words)
    end.

Definition someIn (ids : list string) (l : list jsstring) : bool :=
  existsb (fun x => has (List.map lit ids) x) l.

Definition articleFilter (w : WordEntry) (filter : jsstring) : bool :=
  if streq filter "recent" then someIn ["1"; "2"; "3"]%string (articles w)
  else if streq filter "popular" then 2 <? frequency w
  else if streq filter "bookmarked" then someIn ["1"; "4"]%string (articles w)
  else true.

Definition applyFilters (words : list WordEntry) (fs : Filters) : list WordEntry :=
  let filtered := words in
  let filtered :=
    if 1 <? f_minLength fs
    then List.filter (fun w => f_minLength fs <=? length (word w)) filtered
    else filtered in
  let filtered :=
    if excludeCommon fs
    then List.filter (fun w => negb (has stopWords (word w))) filtered
    else filtered in
  if 0 <? length (f_articles fs)
  then List.filter (fun w => existsb (articleFilter w) (f_articles fs)) filtered
  else filtered.

(** The loop of [extractContexts]: one [RegExp] object with the [g] flag
    is tested on every sentence, so its [lastIndex] is carried from one
    sentence to the next. *)
Fixpoint contextsLoop (regex : list RegExp.node) (lastIndex : nat)
         (sentences : list jsstring) : list jsstring :=
  match sentences with
  | [] => []
  | sentence :: rest =>
      let '(found, lastIndex') := RegExp.testGlobal true regex lastIndex sentence in
      if found then trim sentence :: contextsLoop regex lastIndex' rest
      else contextsLoop regex lastIndex' rest
  end.

Definition extractContexts (content : jsstring) (w : jsstring)
  : outcome (list jsstring) :=
  let sentences := splitRuns (charIn ".!?") content in
  regex ← newRegExp (lit "\b" ++ w ++ lit "\b");
  Done (take 3 (contextsLoop regex 0 sentences)).

Section WithCorpus.

(** [const mockArticles]: the corpus the service analyzes. *)
Variable mockArticles : list Article.

Definition cacheKey : jsstring := "all_articles".

Definition failedToAnalyze : jsstring := "Failed to analyze word frequency".

(** [analyzeAllArticles]: the outcome and the state after the call. *)
Definition analyzeAllArticles (st : State) (reply : WorkerReply)
  : outcome (list WordEntry) * State :=
  match wordCache st !! cacheKey with
  | Some cached => (Done cached, st)
  | None =>
      let '(computed, cache') :=
        if worker st then (processWithWorker st reply, analyzerCache st)
        else
          let '(allWords, cache') := processArticles (analyzerCache st) mockArticles in
          (Done allWords, cache') in
      match computed with
      | Done allWords =>
          (Done allWords,
           mkState (<[cacheKey := allWords]> (wordCache st)) (worker st) cache')
      | other =>
          (rethrow failedToAnalyze other,
           mkState (wordCache st) (worker st) cache')
      end
  end.

(** [new Set(...)] filled by [add]: the distinct ids in first-seen order. *)
Definition collectArticleIds (matches : list WordEntry) : list jsstring :=
  List.fold_left
    (fun ids m => List.fold_left setAdd (articles m) ids) matches [].

Fixpoint articleMatchesFor (term : jsstring) (matches : list WordEntry)
         (articleIds : list jsstring) : outcome (list ArticleMatch) :=
  match articleIds with
  | [] => Done []
  | articleId :: rest =>
      match List.find (fun a => streq (id a) articleId) mockArticles with
      | Some article =>
          let matchCount :=
            sumFrequency
              (List.filter (fun m => has (articles m) articleId) matches) in
          contexts ← extractContexts (content article) term;
          more ← articleMatchesFor term matches rest;
          Done (mkArticleMatch articleId (title article) matchCount contexts :: more)
      | None => articleMatchesFor term matches rest
      end
  end.

Definition buildSearchResult (term : jsstring) (matches : list WordEntry)
  : outcome SearchResult :=
  let totalFrequency := sumFrequency matches in
  articleMatches ← articleMatchesFor term matches (collectArticleIds matches);
  Done (mkSearchResult term totalFrequency articleMatches
          (take 10 (List.concat (List.map am_contexts articleMatches)))).

Fixpoint searchTerms (allWords : list WordEntry) (m : Mode) (fs : Filters)
         (terms : list jsstring) : outcome (list SearchResult) :=
  match terms with
  | [] => Done []
  | term :: rest =>
      matches ← findWordMatches term allWords m;
      let filteredMatches := applyFilters matches fs in
      if 0 <? length filteredMatches then
        searchResult ← buildSearchResult term filteredMatches;
        more ← searchTerms allWords m fs rest;
        Done (searchResult :: more)
      else searchTerms allWords m fs rest
  end.

(** [searchWords] *)
Definition searchWords (st : State) (reply : WorkerReply) (options : SearchOptions)
  : outcome (list SearchResult) * State :=
  if streq (trim (query options)) [] then (Thrown "Search query is required", st)
  else
    let '(analyzed, st') := analyzeAllArticles st reply in
    let searched :=
      allWords ← analyzed;
      results ← searchTerms allWords (mode options) (filters options)
                  (parseSearchQuery (query options) (mode options));
      Done (sortDesc sr_frequency results) in
    (rethrow "Failed to search words" searched, st').

End WithCorpus.

End Service.

(** ** src/utils/stemmer.ts, the functions built on [stemWord] *)

Module Stemming.
Import Js Stemmer.

(** [stemWords] *)
Definition stemWords (words : list jsstring) : list jsstring :=
  List.map stemWord words.

Definition suffixes : list jsstring :=
  List.map lit ["s"; "es"; "ed"; "ing"; "er"; "est"; "ly"; "tion"; "ness"]%string.

(** One round of [suffixes.forEach] in [getWordVariations]. *)
Definition addVariations (stem : jsstring) (variations : list jsstring)
           (suffix : jsstring) : list jsstring :=
  let variations := setAdd variations (stem ++ suffix) in
  let variations :=
    if streq suffix "es" && endsWith stem "s"
    then setAdd variations (stem ++ lit "es") else variations in
  let variations :=
    if streq suffix "ed" && endsWith stem "e"
    then setAdd variations (stem ++ lit "d") else variations in
  if streq suffix "ing" && endsWith stem "e"
  then setAdd variations (dropLast stem ++ lit "ing") else variations.

(** [getWordVariations]: the [Set] starts with the lower-cased word and the
    stem and is returned in insertion order. *)
Definition getWordVariations (word : jsstring) : list jsstring :=
  let stem := stemWord word in
  let variations := setAdd (setAdd [] (toLowerCase word)) stem in
  List.fold_left (addVariations stem) suffixes variations.

(** [haveSameStem] *)
Definition haveSameStem (word1 word2 : jsstring) : bool :=
  streq (stemWord word1) (stemWord word2).

(** One round of [words.forEach] in [groupByStem]: the group of the stem is
    created when missing, then the word is pushed onto it. *)
Definition groupWord (groups : JsMap.t (list jsstring)) (word : jsstring)
  : JsMap.t (list jsstring) :=
  let stem := stemWord word in
  let groups :=
    match JsMap.get groups stem with
    | Some _ => groups
    | None => JsMap.set groups stem []
    end in
  match JsMap.get groups stem with
  | Some group => JsMap.set groups stem (group ++ [word])
  | None => groups
  end.

(** [groupByStem] *)
Definition groupByStem (words : list jsstring) : JsMap.t (list jsstring) :=
  List.fold_left groupWord words [].

End Stemming.

(** ** src/utils/textAnalyzer.ts, sentences and syllables *)

Module Sentences.
Import Js TextAnalyzer.

(** [interface SentenceInfo] *)
Record SentenceInfo := mkSentenceInfo {
  si_text : jsstring;
  si_words : list jsstring;
  si_position : nat;
  si_length : nat
}.

Fixpoint sentenceInfos (index : nat) (sentences : list jsstring)
  : list SentenceInfo :=
  match sentences with
  | [] => []
  | sentence :: rest =>
      let words := List.filter nonEmpty (splitRuns isSpace sentence) in
      mkSentenceInfo (trim sentence)
                     (List.map (fun w => toLowerCase (cleanWord w)) words)
                     index (length words)
      :: sentenceInfos (S index) rest
  end.

(** [extractSentences] *)
Definition extractSentences (text : jsstring) : list SentenceInfo :=
  sentenceInfos 0 (splitIntoSentences (cleanText text)).



(** [export function isStopWord] *)
Definition isStopWord (word : jsstring) : bool :=
  has STOP_WORDS (toLowerCase word).

End Sentences.

(** ** src/stores/wordFrequency.ts *)

Module Store.
Import Js.

(** [Math.min(a, b, c)] *)
Definition min3 (a b c : nat) : nat := Nat.min (Nat.min a b) c.

(** The cells [matrix[i][1..]] of one row, from left to right: [diag] is
    [matrix[i-1][j-1]], [left] is [matrix[i][j-1]] and [above] holds
    [matrix[i-1][j..]]. *)
Fixpoint fillRow (c2 : ascii) (str1 : jsstring) (diag left : nat)
         (above : list nat) : list nat :=
  match str1, above with
  | c1 :: rest1, up :: restAbove =>
      let cell :=
        if Ascii.eqb c2 c1 then diag
        else min3 (diag + 1) (left + 1) (up + 1) in
      cell :: fillRow c2 rest1 up cell restAbove
  | _, _ => []
  end.

(** Row [i] of the matrix from row [i - 1]; its first cell is [i]. *)
Definition nextRow (str1 : jsstring) (previous : list nat) (i : nat) (c2 : ascii)
  : list nat :=
  match previous with
  | diag :: above => i :: fillRow c2 str1 diag i above
  | [] => [i]
  end.

Fixpoint lastRow (str1 : jsstring) (previous : list nat) (i : nat)
         (str2 : jsstring) : list nat :=
  match str2 with
  | [] => previous
  | c2 :: rest2 => lastRow str1 (nextRow str1 previous (S i) c2) (S i) rest2
  end.

(** [levenshteinDistance]: row 0 is [0, 1, ..., str1.length]; the result is
    the last cell of the last row. *)
Definition levenshteinDistance (str1 str2 : jsstring) : nat :=
  List.last (lastRow str1 (seq 0 (S (length str1))) 0 str2) 0.

Definition sameMode (a b : Service.Mode) : bool :=
  match a, b with
  | Service.Intelligent, Service.Intelligent => true
  | Service.Exact, Service.Exact => true
  | _, _ => false
  end.

(** [item.query === options.query && item.mode === options.mode] *)
Definition sameSearch (item options : Service.SearchOptions) : bool :=
  streq (Service.query item) (Service.query options)
  && sameMode (Service.mode item) (Service.mode options).

(** [addToSearchHistory], on the value of [searchHistory] *)
Definition addToSearchHistory (searchHistory : list Service.SearchOptions)
           (options : Service.SearchOptions) : list Service.SearchOptions :=
  let filtered := List.filter (fun item => negb (sameSearch item options)) searchHistory in
  take 20 (options :: filtered).

(** A bound of a range of [getFrequencyDistribution]; [None] is [Infinity]. *)
Record Range := mkRange {
  r_min : nat;
  r_max : option nat;
  r_label : jsstring
}.

Definition ranges : list Range :=
  [ mkRange 1 (Some 1) "1"; mkRange 2 (Some 5) "2-5"; mkRange 6 (Some 10) "6-10";
    mkRange 11 (Some 20) "11-20"; mkRange 21 (Some 50) "21-50";
    mkRange 51 None "50+" ].

Definition inRangeOf (range : Range) (w : WordEntry) : bool :=
  (r_min range <=? frequency w)
  && match r_max range with
     | Some max => frequency w <=? max
     | None => true
     end.

(** [getFrequencyDistribution], on the value of [allWords] *)
Definition getFrequencyDistribution (allWords : list WordEntry)
  : list (jsstring * nat) :=
  List.map (fun range => (r_label range, length (List.filter (inRangeOf range) allWords)))
           ranges.

(** [getWordsByFrequencyRange] *)
Definition getWordsByFrequencyRange (allWords : list WordEntry) (min max : nat)
  : list WordEntry :=
  List.filter (fun w => (min <=? frequency w) && (frequency w <=? max)) allWords.

(** [getWordsByArticleCount] *)
Definition getWordsByArticleCount (allWords : list WordEntry) (min : nat)
  : list WordEntry :=
  List.filter (fun w => min <=? length (articles w)) allWords.

(** An entry of [results]: a [WordEntry] without its optional [stemmed]. *)
Record ResultEntry := mkResultEntry {
  re_word : jsstring;
  re_frequency : nat;
  re_articles : list jsstring
}.

Section WithService.

(** The corpus of the service, the type of the cached analyses, and the
    type of [Date]. *)
Variable mockArticles : list Article.
Variable WordAnalysis : Type.
Variable Date : Type.

(** The refs of the store. *)
Record State := mkState {
  isLoading : bool;
  isSearching : bool;
  isInitialized : bool;
  error : option jsstring;
  allWords : list WordEntry;
  results : list ResultEntry;
  searchHistory : list Service.SearchOptions;
  currentSearch : option Service.SearchOptions;
  hasSearched : bool;
  wordAnalysisCache : gmap jsstring WordAnalysis;
  lastRefreshed : option Date
}.

Definition initialState : State :=
  mkState false false false None [] [] [] None false ∅ None.

(** [initialize]; [now] is the value of [new Date()].  The result is the
    outcome, the store and the service after the call; a pending call
    leaves the store as it was when the call was suspended. *)
Definition initialize (st : State) (service : Service.State)
           (reply : Service.WorkerReply) (now : Date)
  : outcome unit * State * Service.State :=
  if isInitialized st then (Done tt, st, service)
  else
    let loading :=
      mkState true (isSearching st) (isInitialized st) None (allWords st)
              (results st) (searchHistory st) (currentSearch st) (hasSearched st)
              (wordAnalysisCache st) (lastRefreshed st) in
    let '(analyzed, service') :=
      Service.analyzeAllArticles mockArticles service reply in
    match analyzed with
    | Done words =>
        (Done tt,
         mkState false (isSearching st) true None words
                 (results st) (searchHistory st) (currentSearch st) (hasSearched st)
                 (wordAnalysisCache st) (Some now),
         service')
    | Thrown message =>
        (Thrown message,
         mkState false (isSearching st) (isInitialized st) (Some message) (allWords st)
                 (results st) (searchHistory st) (currentSearch st) (hasSearched st)
                 (wordAnalysisCache st) (lastRefreshed st),
         service')
    | Pending => (Pending, loading, service')
    | NotModelled => (NotModelled, loading, service')
    end.

(** [clearResults] *)
Definition clearResults (st : State) : State :=
  mkState (isLoading st) (isSearching st) (isInitialized st) None (allWords st)
          [] (searchHistory st) None false
          (wordAnalysisCache st) (lastRefreshed st).

(** [clearCache] *)
Definition clearCache (st : State) : State :=
  mkState (isLoading st) (isSearching st) false (error st) []
          (results st) (searchHistory st) (currentSearch st) (hasSearched st)
          ∅ None.

(** [clearSearchHistory] *)
Definition clearSearchHistory (st : State) : State :=
  mkState (isLoading st) (isSearching st) (isInitialized st) (error st) (allWords st)
          (results st) [] (currentSearch st) (hasSearched st)
          (wordAnalysisCache st) (lastRefreshed st).

Definition toResultEntry (r : Service.SearchResult) : ResultEntry :=
  mkResultEntry (Service.sr_word r) (Service.sr_frequency r)
                (List.map Service.am_articleId (Service.sr_articles r)).

(** The store after the [catch] and [finally] blocks of [searchWords]. *)
Definition searchFailed (st : State) (message : jsstring) : State :=
  mkState (isLoading st) false (isInitialized st) (Some message) (allWords st)
          [] (searchHistory st) (currentSearch st) (hasSearched st)
          (wordAnalysisCache st) (lastRefreshed st).

(** [searchWords] *)
Definition searchWords (st : State) (service : Service.State)
           (reply : Service.WorkerReply) (now : Date) (options : Service.SearchOptions)
  : outcome unit * State * Service.State :=
  let started :=
    mkState (isLoading st) true (isInitialized st) None (allWords st)
            (results st) (searchHistory st) (currentSearch st) true
            (wordAnalysisCache st) (lastRefreshed st) in
  let '(initialized, st1, service1) :=
    if isInitialized started then (Done tt, started, service)
    else initialize started service reply now in
  match initialized with
  | Done _ =>
      let '(searched, service2) :=
        Service.searchWords mockArticles service1 reply options in
      match searched with
      | Done searchResults =>
          (Done tt,
           mkState (isLoading st1) false (isInitialized st1) (error st1) (allWords st1)
                   (List.map toResultEntry searchResults)
                   (addToSearchHistory (searchHistory st1) options)
                   (Some options) (hasSearched st1)
                   (wordAnalysisCache st1) (lastRefreshed st1),
           service2)
      | Thrown message => (Thrown message, searchFailed st1 message, service2)
      | Pending => (Pending, st1, service2)
      | NotModelled => (NotModelled, st1, service2)
      end
  | Thrown message => (Thrown message, searchFailed st1 message, service1)
  | Pending => (Pending, st1, service1)
  | NotModelled => (NotModelled, st1, service1)
  end.

(** [refreshData] *)
Definition refreshData (st : State) (service : Service.State)
           (reply : Service.WorkerReply) (now : Date)
  : outcome unit * State * Service.State :=
  let '(initialized, st1, service1) := initialize (clearCache st) service reply now in
  match initialized with
  | Done _ =>
      match currentSearch st1 with
      | Some options => searchWords st1 service1 reply now options
      | None => (Done tt, st1, service1)
      end
  | other => (other, st1, service1)
  end.

End WithService.

End Store.

Arguments Store.mkState {WordAnalysis Date}.
Arguments Store.isLoading {WordAnalysis Date}.
Arguments Store.isSearching {WordAnalysis Date}.
Arguments Store.isInitialized {WordAnalysis Date}.
Arguments Store.error {WordAnalysis Date}.
Arguments Store.allWords {WordAnalysis Date}.
Arguments Store.results {WordAnalysis Date}.
Arguments Store.searchHistory {WordAnalysis Date}.
Arguments Store.currentSearch {WordAnalysis Date}.
Arguments Store.hasSearched {WordAnalysis Date}.
Arguments Store.wordAnalysisCache {WordAnalysis Date}.
Arguments Store.lastRefreshed {WordAnalysis Date}.
Arguments Store.initialState {WordAnalysis Date}.
Arguments Store.initialize mockArticles {WordAnalysis Date}.
Arguments Store.clearResults {WordAnalysis Date}.
Arguments Store.clearCache {WordAnalysis Date}.
Arguments Store.clearSearchHistory {WordAnalysis Date}.
Arguments Store.searchFailed {WordAnalysis Date}.
Arguments Store.searchWords mockArticles {WordAnalysis Date}.
Arguments Store.refreshData mockArticles {WordAnalysis Date}.

(** ** src/utils/featureGates.ts *)

Module FeatureGates.
Import Js.

(** [type SubscriptionTier = 'free' | 'pro'] *)
Inductive SubscriptionTier := Free | Pro.

Definition sameTier (a b : SubscriptionTier) : bool :=
  match a, b with
  | Free, Free => true
  | Pro, Pro => true
  | _, _ => false
  end.

(** The fields of a [FeatureGate] that the functions below read. *)
Record FeatureGate := mkFeatureGate {
  fg_id : jsstring;
  fg_category : jsstring;
  fg_tier : list SubscriptionTier
}.

Definition gate (i c : string) : FeatureGate := mkFeatureGate i c [Pro].

Definition FEATURE_GATES : list FeatureGate :=
  [ gate "unlimited_articles" "content"; gate "premium_content" "content";
    gate "offline_download" "content";
    gate "advanced_glossary" "dictionary"; gate "contextual_definitions" "dictionary";
    gate "audio_definitions" "dictionary"; gate "word_etymology" "dictionary";
    gate "sentence_audio_sync" "audio"; gate "speed_control" "audio";
    gate "audio_visualizer" "audio"; gate "custom_audio" "audio";
    gate "cross_article_search" "analysis"; gate "advanced_analytics" "analysis";
    gate "word_frequency_analytics" "analysis"; gate "learning_patterns" "analysis";
    gate "smart_suggestions" "analysis";
    gate "export_pdf" "export"; gate "export_epub" "export";
    gate "export_annotations" "export"; gate "bulk_export" "export";
    gate "priority_support" "support"; gate "live_chat" "support";
    gate "phone_support" "support" ].

(** [isFeatureAvailable] *)
Definition isFeatureAvailable (featureId : jsstring) (tier : SubscriptionTier) : bool :=
  match List.find (fun f => streq (fg_id f) featureId) FEATURE_GATES with
  | None => true
  | Some feature => existsb (sameTier tier) (fg_tier feature)
  end.

(** [getAvailableFeatures] *)
Definition getAvailableFeatures (tier : SubscriptionTier) : list FeatureGate :=
  List.filter (fun feature => existsb (sameTier tier) (fg_tier feature)) FEATURE_GATES.

(** [getFeaturesByCategory] *)
Definition getFeaturesByCategory (category : jsstring) : list FeatureGate :=
  List.filter (fun feature => streq (fg_category feature) category) FEATURE_GATES.

(** [FREE_TIER_LIMITS] and [PRO_TIER_LIMITS]; [None] is [Infinity]. *)
Record Limits := mkLimits {
  articles_per_month : option Z;
  highlights_per_article : option Z;
  searches_per_day : option Z;
  exports_per_month : option Z;
  api_calls_per_hour : option Z
}.

Definition FREE_TIER_LIMITS : Limits :=
  mkLimits (Some 5%Z) (Some 10%Z) (Some 20%Z) (Some 0%Z) (Some 10%Z).

Definition PRO_TIER_LIMITS : Limits :=
  mkLimits None None None None (Some 1000%Z).

(** [getUsageLimit]; [None] is [null]. *)
Definition getUsageLimit (featureId : jsstring) (tier : SubscriptionTier) : option Z :=
  let limits := match tier with Free => FREE_TIER_LIMITS | Pro => PRO_TIER_LIMITS end in
  if streq featureId "articles" then articles_per_month limits
  else if streq featureId "highlights" then highlights_per_article limits
  else if streq featureId "searches" then searches_per_day limits
  else if streq featureId "exports" then exports_per_month limits
  else if streq featureId "api_calls" then api_calls_per_hour limits
  else None.

(** [isWithinUsageLimit], for an integer usage *)
Definition isWithinUsageLimit (featureId : jsstring) (tier : SubscriptionTier)
           (currentUsage : Z) : bool :=
  match getUsageLimit featureId tier with
  | None => true
  | Some limit => (currentUsage <? limit)%Z
  end.

(** [getRemainingUsage], for an integer usage *)
Definition getRemainingUsage (featureId : jsstring) (tier : SubscriptionTier)
           (currentUsage : Z) : option Z :=
  match getUsageLimit featureId tier with
  | None => None
  | Some limit => Some (Z.max 0 (limit - currentUsage))
  end.

End FeatureGates.

(** * Vocabulary of the statements *)

Section StringVocabulary.
Import Js.

(** A string is in lower case when [toLowerCase] leaves it as it is. *)
Definition lowered (s : jsstring) : Prop := toLowerCase s = s.

Definition lowerChar (c : ascii) : Prop := toLowerChar c = c.

End StringVocabulary.

Section AnalyzerVocabulary.
Import Js TextAnalyzer.

(** The analyzer cache after the calls [extractWords(t, o)] for the texts
    of a list, in order. *)
Definition cacheAfter (o : Options) (texts : list jsstring) (cache : Cache)
  : Cache :=
  List.fold_left (fun c t => snd (extractWords c t o)) texts cache.

(** An opening of 108 characters shared by two texts. *)
Definition sharedOpening : jsstring :=
  List.concat (List.repeat (lit "lorem ipsum dolor ") 6).

Definition catsText : jsstring := sharedOpening ++ lit "cats purr".

Definition dogsText : jsstring := sharedOpening ++ lit "dogs bark".

End AnalyzerVocabulary.

Section AggregationVocabulary.
Import Js.









End AggregationVocabulary.

Section PatternVocabulary.
Import Js RegExp.

Definition consuming (n : node) : bool :=
  match n with
  | NWordBoundary => false
  | _ => true
  end.

(** [Matches ns s]: the whole of [s] fits the nodes [ns], case ignored. *)
Inductive Matches : list node -> jsstring -> Prop :=
| Matches_nil : Matches [] []
| Matches_atom a x ns s :
    atomMatches true a x = true -> Matches ns s ->
    Matches (NAtom a :: ns) (x :: s)
| Matches_star a xs ns s :
    Forall (fun x => atomMatches true a x = true) xs -> Matches ns s ->
    Matches (NStar a :: ns) (xs ++ s).

(** What a continuation finds is a prefix of its input. *)
Definition findsPrefix (ns : list node)
           (k : option ascii -> jsstring -> nat -> option nat) : Prop :=
  forall prev s pos e, k prev s pos = Some e ->
    exists mid rest, s = mid ++ rest /\ Matches ns mid /\ e = pos + length mid.

(** A continuation that succeeds on every input that starts with a
    match. *)
Definition findsEvery (ns : list node)
           (k : option ascii -> jsstring -> nat -> option nat) : Prop :=
  forall mid, Matches ns mid ->
    forall prev rest pos, exists e, k prev (mid ++ rest) pos = Some e.

(** A character that is not pattern syntax, apart from [.] and [*]. *)
Definition plainChar (c : ascii) : bool :=
  negb (isBackslash c) && negb (isOtherSyntaxChar c).

(** The node that a character of the term becomes once every [*] has
    been replaced by [.*]. *)
Definition termNode (c : ascii) : node :=
  if isStar c then NStar AAny
  else NAtom (if isDot c then AAny else AChar c).


End PatternVocabulary.

(** Scenario A: a corpus of one document. *)
Definition scenarioA : list Article :=
  [ mkArticle "1" "Scenario A"
      "The quick brown fox jumps over the lazy dog. The dog barks." "Test" ].

Section ScenarioVocabulary.
Import Js Service.






End ScenarioVocabulary.

Section PathVocabulary.
Import Js.








End PathVocabulary.

Section FurtherVocabulary.
Import Js.



(** The words of a list that have a given stem, in order. *)
Definition withStem (stem : jsstring) (words : list jsstring) : list jsstring :=
  List.filter (fun w => streq (Stemmer.stemWord w) stem) words.

(** The keys of a map, in insertion order. *)
Definition keys {V} (m : JsMap.t V) : list jsstring := List.map fst m.

(** The characters that [cleanText] lets through: those outside
    [PUNCTUATION], and the space it puts in place of the others. *)
Definition kept (c : ascii) : Prop :=
  TextAnalyzer.isPunctuation c = false \/ c = TextAnalyzer.space.

(** The shape of a token: lower-case letters and apostrophes only. *)
Definition tokenChar (c : ascii) : bool := isLowerAZ c || TextAnalyzer.isApostrophe c.

(** A list in descending order of a key. *)
Definition descending {A} (key : A -> nat) (l : list A) : Prop :=
  StronglySorted (fun a b => key b <= key a) l.



(** The frequency recorded for a word in a map, 0 when the word is no key. *)
Definition recorded (m : JsMap.t WordEntry) (w : jsstring) : nat :=
  from_option frequency 0 (JsMap.get m w).



Definition keptByOptimize (w : WordEntry) : bool :=
  (1 <? frequency w) || (1 <? length (articles w)).

(** The test that [applyFilters] puts an entry to. *)
Definition passes (fs : Service.Filters) (w : WordEntry) : bool :=
  (if 1 <? Service.f_minLength fs
   then Service.f_minLength fs <=? length (word w) else true)
  && (if Service.excludeCommon fs
      then negb (has Service.stopWords (word w)) else true)
  && (if 0 <? length (Service.f_articles fs)
      then existsb (Service.articleFilter w) (Service.f_articles fs) else true).

(** A scope name for which [applyFilters] has a case. *)
Definition knownScope (filter : jsstring) : bool :=
  streq filter "recent" || streq filter "popular" || streq filter "bookmarked".

(** What holds of every search result built for the terms of a query. *)
Definition resultOk (corpus : list Article) (terms : list jsstring)
           (r : Service.SearchResult) : Prop :=
  In (Service.sr_word r) terms
  /\ length (Service.sr_contexts r) <= 10
  /\ List.NoDup (List.map Service.am_articleId (Service.sr_articles r))
  /\ Forall (fun am =>
               length (Service.am_contexts am) <= 3
               /\ exists a, In a corpus
                            /\ id a = Service.am_articleId am
                            /\ title a = Service.am_title am)
            (Service.sr_articles r).

(** A segment of a query between two double quotes. *)
Definition quotedIn (query p : jsstring) : Prop :=
  exists pre a b post,
    query = pre ++ a :: p ++ b :: post
    /\ Service.isDoubleQuote a = true /\ Service.isDoubleQuote b = true.

Definition noQuote (c : ascii) : Prop := Service.isDoubleQuote c = false.

(** The number of single-character edits between two strings, by the
    usual recurrence on their first characters. *)
Fixpoint editDistance (s : jsstring) : jsstring -> nat :=
  match s with
  | [] => fun t => length t
  | a :: s' =>
      fix inner (t : jsstring) : nat :=
        match t with
        | [] => S (length s')
        | b :: t' =>
            if Ascii.eqb a b then editDistance s' t'
            else S (Store.min3 (editDistance s' t') (inner t') (editDistance s' t))
        end
  end.

(** The distances from [r2] to the prefixes of a string that extend the
    prefix [a1]; both [r2] and [a1] are read from their last character. *)
Fixpoint cells (r2 a1 rest : jsstring) : list nat :=
  match rest with
  | [] => []
  | c :: rest' => editDistance r2 (c :: a1) :: cells r2 (c :: a1) rest'
  end.

(** A history in which no two searches have the same query and mode. *)
Definition distinctSearches (history : list Service.SearchOptions) : Prop :=
  StronglySorted (fun a b => Store.sameSearch a b = false) history.

End FurtherVocabulary.

(** * Properties *)

(** ** Characters and strings *)

Section StringFacts.
Import Js.

Lemma toLowerChar_idem (c : ascii) : toLowerChar (toLowerChar c) = toLowerChar c.
Proof. destruct c as [[] [] [] [] [] [] [] []]; vm_compute; reflexivity. Qed.

Lemma toLowerCase_idem (s : jsstring) : toLowerCase (toLowerCase s) = toLowerCase s.
Proof.
  unfold toLowerCase. rewrite List.map_map.
  apply List.map_ext. intros c. apply toLowerChar_idem.
Qed.

Lemma toLowerCase_length (s : jsstring) : length (toLowerCase s) = length s.
Proof. unfold toLowerCase. apply List.length_map. Qed.

Lemma toLowerCase_app (s t : jsstring) :
  toLowerCase (s ++ t) = toLowerCase s ++ toLowerCase t.
Proof. unfold toLowerCase. apply List.map_app. Qed.

Lemma lowered_toLowerCase s : lowered (toLowerCase s).
Proof. apply toLowerCase_idem. Qed.

Lemma lowered_app s t : lowered s -> lowered t -> lowered (s ++ t).
Proof. unfold lowered. intros Hs Ht. rewrite toLowerCase_app, Hs, Ht. reflexivity. Qed.

Lemma lowered_take n s : lowered s -> lowered (take n s).
Proof.
  unfold lowered, toLowerCase. intros H.
  rewrite <- List.firstn_map. f_equal. exact H.
Qed.

Lemma lowered_dropLast s : lowered s -> lowered (dropLast s).
Proof. apply lowered_take. Qed.

Lemma lowered_lit_e : lowered (lit "e").
Proof. reflexivity. Qed.

Lemma lowered_Forall (s : jsstring) : lowered s <-> Forall lowerChar s.
Proof.
  unfold lowered, toLowerCase, lowerChar. induction s as [|c s IH]; simpl.
  - split; [constructor | reflexivity].
  - split.
    + intros H. inversion H as [[Hc Hs]]. rewrite Hc, Hs.
      constructor; [exact Hc | apply IH; exact Hs].
    + intros H. inversion H as [|? ? Hc Hs]; subst.
      rewrite Hc. f_equal. apply IH. exact Hs.
Qed.

Lemma lowerChar_not_upper (c : ascii) : lowerChar c -> isUpperAZ c = false.
Proof.
  unfold lowerChar. destruct c as [[] [] [] [] [] [] [] []];
    vm_compute; intros H; first [reflexivity | discriminate H].
Qed.

Lemma lowered_no_upper (s : jsstring) :
  lowered s -> Forall (fun c => isUpperAZ c = false) s.
Proof.
  intros H. apply lowered_Forall in H.
  induction H as [|c s Hc Hs IH]; constructor;
    [apply lowerChar_not_upper, Hc | exact IH].
Qed.

End StringFacts.

(** ** The stemmer *)

Section StemmerFacts.
Import Js Stemmer.

Lemma lowered_applyRules (rules : list Rule) (w : jsstring) :
  Forall (fun r => lowered (replacement r)) rules ->
  lowered w -> lowered (applyRules w rules).
Proof.
  intros Hrules Hw. induction Hrules as [|r rules Hr _ IH]; simpl; [exact Hw|].
  destruct (endsWith w (pattern r)); [|exact IH].
  destruct (conditionHolds _ _); [|exact IH].
  apply lowered_app; [apply lowered_take; exact Hw | exact Hr].
Qed.

Ltac rules_lowered :=
  repeat (constructor; [reflexivity|]); constructor.

Lemma lowered_step1a : Forall (fun r => lowered (replacement r)) step1aRules.
Proof. rules_lowered. Qed.
Lemma lowered_step1b : Forall (fun r => lowered (replacement r)) step1bRules.
Proof. rules_lowered. Qed.
Lemma lowered_step1bPost : Forall (fun r => lowered (replacement r)) step1bPost.
Proof. rules_lowered. Qed.
Lemma lowered_step2 : Forall (fun r => lowered (replacement r)) step2Rules.
Proof. rules_lowered. Qed.
Lemma lowered_step3 : Forall (fun r => lowered (replacement r)) step3Rules.
Proof. rules_lowered. Qed.
Lemma lowered_step4 : Forall (fun r => lowered (replacement r)) step4Rules.
Proof. rules_lowered. Qed.

Lemma lowered_step1bFixup b w : lowered w -> lowered (step1bFixup b w).
Proof.
  intros Hw. unfold step1bFixup.
  repeat match goal with
         | |- lowered (if ?c then _ else _) => destruct c
         end;
    auto using lowered_applyRules, lowered_step1bPost, lowered_dropLast,
               lowered_app, lowered_lit_e.
Qed.

Lemma lowered_step5 w : lowered w -> lowered (step5 w).
Proof.
  intros Hw. unfold step5.
  repeat match goal with
         | |- lowered (if ?c then _ else _) => destruct c
         end; auto using lowered_dropLast.
Qed.

Lemma lowered_step5b w : lowered w -> lowered (step5b w).
Proof.
  intros Hw. unfold step5b.
  destruct (_ && _); auto using lowered_dropLast.
Qed.

Lemma lowered_stemSteps w : lowered w -> lowered (stemSteps w).
Proof.
  intros Hw. unfold stemSteps.
  apply lowered_step5b, lowered_step5.
  repeat match goal with
         | |- lowered (if ?c then _ else _) => destruct c
         | |- lowered (applyRules _ _) => apply lowered_applyRules
         | |- lowered (step1bFixup _ _) => apply lowered_step1bFixup
         | |- Forall _ _ =>
             first [ exact lowered_step1a | exact lowered_step1b
                   | exact lowered_step2 | exact lowered_step3
                   | exact lowered_step4 ]
         end; exact Hw.
Qed.

(** C4: the classic reference vectors. *)
Theorem stemWord_classic_vectors :
  stemWord "caresses" = "caress"
  /\ stemWord "ponies" = "poni"
  /\ stemWord "ties" = "ti"
  /\ stemWord "agreed" = "agre".
Proof. repeat split; vm_compute; reflexivity. Qed.

(** C10: a word of at most two characters is returned as it is, case
    included; a longer word is lower-cased before any rule is tried, so
    that its stem is the stem of its lower-case form and is itself in lower
    case. *)
Theorem stemWord_length_guard (w : jsstring) :
  (length w <= 2 -> stemWord w = w)
  /\ (3 <= length w ->
      stemWord w = stemSteps (toLowerCase w)
      /\ stemWord w = stemWord (toLowerCase w)
      /\ toLowerCase (stemWord w) = stemWord w
      /\ Forall (fun c => isUpperAZ c = false) (stemWord w)).
Proof.
  unfold stemWord. split.
  - intros H. destruct (Nat.leb_spec (length w) 2); [reflexivity | lia].
  - intros H. rewrite toLowerCase_length.
    destruct (Nat.leb_spec (length w) 2); [lia|].
    rewrite toLowerCase_idem.
    split; [reflexivity|]. split; [reflexivity|].
    split; [|apply lowered_no_upper];
      apply lowered_stemSteps, lowered_toLowerCase.
Qed.

Lemma stemWord_length_guard_witness :
  stemWord "AB" = "AB"
  /\ stemWord "AGREED" = "agre"
  /\ toLowerCase (stemWord "Ponies") = stemWord "Ponies".
Proof.
  split; [apply (stemWord_length_guard "AB"); simpl; lia|].
  split.
  - destruct (stemWord_length_guard "AGREED") as [_ H].
    destruct H as [_ [H _]]; [simpl; lia|]. rewrite H. vm_compute. reflexivity.
  - destruct (stemWord_length_guard "Ponies") as [_ H].
    destruct H as [_ [_ [H _]]]; [simpl; lia|]. exact H.
Defined.

End StemmerFacts.

(** ** The analyzer cache *)

Section AnalyzerFacts.
Import Js TextAnalyzer.

Lemma extractWords_miss (cache : Cache) (text : jsstring) (o : Options) :
  cache !! cacheKey text o = None ->
  extractWords cache text o
  = (computeWords text o, <[cacheKey text o := computeWords text o]> cache).
Proof. intros H. unfold extractWords. rewrite H. reflexivity. Qed.

Lemma extractWords_hit (cache : Cache) (text : jsstring) (o : Options) hit :
  cache !! cacheKey text o = Some hit ->
  extractWords cache text o = (hit, cache).
Proof. intros H. unfold extractWords. rewrite H. reflexivity. Qed.

(** The key reads the first hundred characters of the text only. *)
Lemma cacheKey_prefix (t1 t2 : jsstring) (o : Options) :
  take 100 t1 = take 100 t2 -> cacheKey t1 o = cacheKey t2 o.
Proof. intros H. unfold cacheKey. rewrite H. reflexivity. Qed.

(** After a call on [t1], a call on any text with the same first hundred
    characters returns the words of [t1]. *)
Lemma extractWords_after_same_opening (t1 t2 : jsstring) (o : Options) :
  take 100 t1 = take 100 t2 ->
  fst (extractWords (snd (extractWords ∅ t1 o)) t2 o) = computeWords t1 o.
Proof.
  intros H. rewrite (extractWords_miss ∅ t1 o) by apply lookup_empty. simpl.
  rewrite (extractWords_hit _ t2 o (computeWords t1 o)); [reflexivity|].
  rewrite <- (cacheKey_prefix t1 t2 o H). apply lookup_insert_eq.
Qed.

Lemma cacheKey_opening (t1 t2 : jsstring) (o : Options) :
  cacheKey t1 o = cacheKey t2 o -> take 100 t1 = take 100 t2.
Proof.
  unfold cacheKey. intros H.
  apply app_inv_head in H. apply app_inv_tail in H. exact H.
Qed.

Lemma cacheAfter_entries (o : Options) (texts : list jsstring) :
  forall cache k v,
    cacheAfter o texts cache !! k = Some v ->
    cache !! k = Some v
    \/ exists t, In t texts /\ k = cacheKey t o /\ v = computeWords t o.
Proof.
  unfold cacheAfter.
  induction texts as [|t texts IH]; intros cache k v; simpl; [auto|].
  intros H. destruct (IH _ _ _ H) as [Hk|(t' & Hin & Hk & Hv)].
  - unfold extractWords in Hk.
    destruct (cache !! cacheKey t o) as [hit|] eqn:Hc; simpl in Hk; [auto|].
    destruct (decide (cacheKey t o = k)) as [<-|Hne].
    + rewrite lookup_insert_eq in Hk. inversion Hk. right. exists t. auto.
    + rewrite lookup_insert_ne in Hk by exact Hne. auto.
  - right. exists t'. auto.
Qed.

(** What the cache is for: on an analyzer that has seen no other text with
    the same first hundred characters, a call returns the words of its own
    text, whatever was processed before. *)
Lemma extractWords_own_words (o : Options) (texts : list jsstring) (text : jsstring) :
  (forall t, In t texts -> take 100 t = take 100 text -> t = text) ->
  fst (extractWords (cacheAfter o texts ∅) text o) = computeWords text o.
Proof.
  intros Hdistinct. unfold extractWords.
  destruct (cacheAfter o texts ∅ !! cacheKey text o) as [hit|] eqn:Hc;
    [|reflexivity].
  simpl. destruct (cacheAfter_entries _ _ _ _ _ Hc) as [H|(t & Hin & Hk & Hv)].
  - rewrite lookup_empty in H. discriminate H.
  - symmetry in Hk. apply cacheKey_opening in Hk.
    rewrite (Hdistinct t Hin Hk) in Hv. exact Hv.
Qed.

(** C5, on the code: the result of [extractWords] depends on the calls
    made before.  On a fresh analyzer the words of [dogsText] end with
    dogs, bark; after a call on [catsText], which shares its first hundred
    characters, the same call returns the words of [catsText]. *)
Theorem extractWords_reads_earlier_calls :
  asWords (fst (extractWords ∅ dogsText defaultOptions))
  = List.concat (List.repeat [lit "lorem"; lit "ipsum"; lit "dolor"] 6)
    ++ [lit "dogs"; lit "bark"]
  /\ asWords (fst (extractWords (snd (extractWords ∅ catsText defaultOptions))
                     dogsText defaultOptions))
     = List.concat (List.repeat [lit "lorem"; lit "ipsum"; lit "dolor"] 6)
       ++ [lit "cats"; lit "purr"]
  /\ fst (extractWords (snd (extractWords ∅ catsText defaultOptions))
            dogsText defaultOptions)
     <> fst (extractWords ∅ dogsText defaultOptions).
Proof.
  split; [vm_compute; reflexivity|].
  split; [vm_compute; reflexivity|].
  vm_compute. intros H. discriminate H.
Qed.

End AnalyzerFacts.

(** ** Sorting, sums and insertion-ordered maps *)

Section SortFacts.
Context {A : Type} (key : A -> nat).

Lemma insertDesc_perm (x : A) (l : list A) : insertDesc key x l ≡ₚ x :: l.
Proof.
  induction l as [|y l IH]; simpl; [reflexivity|].
  destruct (key x <? key y); [|reflexivity].
  rewrite IH. apply Permutation_swap.
Qed.

Lemma sortDesc_perm (l : list A) : sortDesc key l ≡ₚ l.
Proof.
  induction l as [|x l IH]; simpl; [reflexivity|].
  rewrite insertDesc_perm, IH. reflexivity.
Qed.

Lemma sortDesc_In (l : list A) (x : A) : In x (sortDesc key l) <-> In x l.
Proof.
  split; apply Permutation_in; [|symmetry]; apply sortDesc_perm.
Qed.

End SortFacts.



Section JsMapFacts.
Import Js.
Context {V : Type}.

Lemma streq_true (a b : jsstring) : streq a b = true <-> a = b.
Proof. unfold streq. apply bool_decide_eq_true. Qed.

Lemma streq_refl (a : jsstring) : streq a a = true.
Proof. by apply streq_true. Qed.

Lemma JsMap_In_set (m : JsMap.t V) k v k' v' :
  In (k', v') (JsMap.set m k v) -> (k' = k /\ v' = v) \/ In (k', v') m.
Proof.
  induction m as [|[k0 v0] m IH]; simpl.
  - intros [H|[]]. inversion H. auto.
  - destruct (streq k0 k); simpl.
    + intros [H|H]; [inversion H; auto | auto].
    + intros [H|H]; [auto|]. destruct (IH H); auto.
Qed.



End JsMapFacts.

(** ** Aggregation: the sum of the frequencies *)

Section Conservation.
Import Js.





(** *** The worker *)

Lemma batches_cover {T} (m : nat) (items : list T) :
  length items <= m * Worker.BATCH_SIZE ->
  List.concat
    (List.map (fun i => slice items i (i + Worker.BATCH_SIZE))
              (List.map (fun k => k * Worker.BATCH_SIZE) (seq 0 m)))
  = items.
Proof.
  unfold Worker.BATCH_SIZE, slice.
  revert items. induction m as [|m IH]; intros items Hlen.
  - destruct items; [reflexivity | simpl in Hlen; lia].
  - rewrite <- List.cons_seq, <- List.seq_shift. simpl.
    rewrite List.map_map.
    rewrite List.map_map.
    rewrite <- (take_drop 10 items) at 2.
    f_equal.
    rewrite <- (IH (drop 10 items)) at 1 by (rewrite length_drop; lia).
    rewrite List.map_map. f_equal. apply List.map_ext. intros k.
    rewrite drop_drop.
    replace (S k * 10 + 10 - S k * 10) with (k * 10 + 10 - k * 10) by lia.
    replace (10 + k * 10) with (S k * 10) by lia. reflexivity.
Qed.

Lemma batchStarts_enough (n : nat) :
  n <= (n + (Worker.BATCH_SIZE - 1)) / Worker.BATCH_SIZE * Worker.BATCH_SIZE.
Proof.
  unfold Worker.BATCH_SIZE. simpl Nat.sub.
  pose proof (Nat.div_mod_eq (n + 9) 10) as H.
  pose proof (Nat.mod_upper_bound (n + 9) 10) as Hm. lia.
Qed.

(** The batches only group the work: the results are those of the
    processor on every item, in order. *)
Lemma processBatches_results {T R} (items : list T) (processor : T -> R) :
  fst (Worker.processBatches items processor) = List.map processor items.
Proof.
  unfold Worker.processBatches, Worker.batchStarts. simpl.
  rewrite <- List.concat_map. f_equal.
  apply batches_cover, batchStarts_enough.
Qed.








(** *** The main thread *)








End Conservation.

(** ** Patterns without assertions *)

Section Wildcards.
Import Js RegExp.

Lemma star_sound ns k a :
  findsPrefix ns k -> findsPrefix (NStar a :: ns) (star k true a).
Proof.
  intros Hk prev s. revert prev.
  induction s as [|x s IH]; intros prev pos e; simpl.
  - intros H. destruct (Hk _ _ _ _ H) as (mid & rest & -> & Hm & ->).
    exists mid, rest. split; [reflexivity|]. split; [|reflexivity].
    apply (Matches_star a [] ns mid); [constructor | exact Hm].
  - assert (Hback : k prev (x :: s) pos = Some e ->
              exists mid rest, x :: s = mid ++ rest
                /\ Matches (NStar a :: ns) mid /\ e = pos + length mid).
    { intros H. destruct (Hk _ _ _ _ H) as (mid & rest & Heq & Hm & ->).
      exists mid, rest. split; [exact Heq|]. split; [|reflexivity].
      apply (Matches_star a [] ns mid); [constructor | exact Hm]. }
    destruct (atomMatches true a x) eqn:Hx; [|exact Hback].
    destruct (star k true a (Some x) s (S pos)) as [e'|] eqn:Hs; [|exact Hback].
    intros He. inversion He; subst e'. clear He.
    destruct (IH _ _ _ Hs) as (mid & rest & -> & Hm & ->).
    exists (x :: mid), rest. split; [reflexivity|]. split; [|simpl; lia].
    inversion Hm as [| |a' xs ns' s' Hxs Hs' Ha Hmid]; subst.
    apply (Matches_star a (x :: xs) ns s'); [constructor; assumption | exact Hs'].
Qed.

Lemma matchNodes_sound ns :
  forallb consuming ns = true -> findsPrefix ns (matchNodes true ns).
Proof.
  induction ns as [|n ns IH]; simpl.
  - intros _ prev s pos e H. inversion H; subst.
    exists [], s. split; [reflexivity|]. split; [constructor | simpl; lia].
  - intros Hc. apply andb_true_iff in Hc as [Hn Hns]. specialize (IH Hns).
    destruct n as [a|a|]; [| apply star_sound, IH | discriminate Hn].
    intros prev s pos e. destruct s as [|x s]; [discriminate|].
    destruct (atomMatches true a x) eqn:Hx; [|discriminate].
    intros H. destruct (IH _ _ _ _ H) as (mid & rest & -> & Hm & ->).
    exists (x :: mid), rest. split; [reflexivity|].
    split; [constructor; assumption | simpl; lia].
Qed.

Lemma star_falls_back k a prev s pos e :
  k prev s pos = Some e -> exists e', star k true a prev s pos = Some e'.
Proof.
  intros H. destruct s as [|x s]; simpl; [eauto|].
  destruct (atomMatches true a x); [|eauto].
  destruct (star k true a (Some x) s (S pos)); eauto.
Qed.

Lemma star_complete k a xs s :
  Forall (fun x => atomMatches true a x = true) xs ->
  (forall prev rest pos, exists e, k prev (s ++ rest) pos = Some e) ->
  forall prev rest pos, exists e, star k true a prev ((xs ++ s) ++ rest) pos = Some e.
Proof.
  intros Hxs Hk. induction Hxs as [|x xs Hx Hxs IH]; intros prev rest pos.
  - destruct (Hk prev rest pos) as [e He]. eapply star_falls_back. exact He.
  - simpl. rewrite Hx. destruct (IH (Some x) rest (S pos)) as [e He].
    rewrite He. eauto.
Qed.

Lemma matchNodes_complete ns : findsEvery ns (matchNodes true ns).
Proof.
  intros mid Hm. induction Hm as [|a x ns s Hx Hm IH|a xs ns s Hxs Hm IH];
    intros prev rest pos.
  - simpl. eauto.
  - simpl. rewrite Hx. apply IH.
  - simpl. apply star_complete; assumption.
Qed.

(** The search succeeds exactly when some part of the input fits the
    nodes. *)
Lemma searchFrom_iff ns :
  forallb consuming ns = true ->
  forall s prev pos,
    (exists r, searchFrom true ns prev s pos = Some r)
    <-> exists pre mid suf, s = pre ++ mid ++ suf /\ Matches ns mid.
Proof.
  intros Hc. induction s as [|c s IH]; intros prev pos.
  - simpl. split.
    + intros [r Hr].
      destruct (matchNodes true ns prev [] pos) as [e|] eqn:He; [|discriminate].
      destruct (matchNodes_sound ns Hc _ _ _ _ He) as (mid & rest & Heq & Hm & _).
      exists [], mid, rest. split; [exact Heq | exact Hm].
    + intros (pre & mid & suf & Heq & Hm).
      symmetry in Heq. apply app_eq_nil in Heq as [-> Heq].
      apply app_eq_nil in Heq as [-> ->].
      destruct (matchNodes_complete ns [] Hm prev [] pos) as [e He].
      simpl in He. rewrite He. eauto.
  - simpl. destruct (matchNodes true ns prev (c :: s) pos) as [e|] eqn:He.
    + split; [|eauto]. intros _.
      destruct (matchNodes_sound ns Hc _ _ _ _ He) as (mid & rest & Heq & Hm & _).
      exists [], mid, rest. split; [exact Heq | exact Hm].
    + rewrite (IH (Some c) (S pos)). split.
      * intros (pre & mid & suf & -> & Hm). exists (c :: pre), mid, suf.
        split; [reflexivity | exact Hm].
      * intros (pre & mid & suf & Heq & Hm). destruct pre as [|c' pre].
        -- exfalso. simpl in Heq.
           destruct (matchNodes_complete ns mid Hm prev suf pos) as [e' He'].
           rewrite <- Heq in He'. congruence.
        -- simpl in Heq. inversion Heq; subst. eauto.
Qed.

Lemma test_iff ns w :
  forallb consuming ns = true ->
  test true ns w = true
  <-> exists pre mid suf, w = pre ++ mid ++ suf /\ Matches ns mid.
Proof.
  intros Hc. unfold test, execAt. rewrite drop_0.
  rewrite <- (searchFrom_iff ns Hc w None 0).
  destruct (searchFrom true ns None w 0); split; eauto; try discriminate.
  intros [r Hr]. discriminate Hr.
Qed.

(** *** The pattern of a wildcard term *)

Lemma expandWildcards_cons c term :
  Service.expandWildcards (c :: term)
  = (if isStar c then lit ".*" else [c]) ++ Service.expandWildcards term.
Proof. reflexivity. Qed.

Lemma expandWildcards_head term :
  match Service.expandWildcards term with
  | q :: _ => isStar q = false
  | [] => True
  end.
Proof.
  destruct term as [|c term]; [exact I|].
  rewrite expandWildcards_cons. destruct (isStar c) eqn:E; [reflexivity|exact E].
Qed.

Lemma inFragment_expandWildcards term :
  forallb plainChar term = true ->
  inFragment (Service.expandWildcards term) = true.
Proof.
  induction term as [|c term IH]; [reflexivity|].
  simpl forallb. intros H. apply andb_true_iff in H as [Hc Ht].
  specialize (IH Ht). rewrite expandWildcards_cons.
  unfold plainChar in Hc. apply andb_true_iff in Hc as [Hb Ho].
  destruct (isStar c) eqn:E.
  - simpl. exact IH.
  - simpl. destruct (isBackslash c); [discriminate Hb|].
    rewrite Ho. exact IH.
Qed.

Lemma parse_expandWildcards term :
  forallb plainChar term = true ->
  parse (Service.expandWildcards term) = Pattern (List.map termNode term).
Proof.
  induction term as [|c term IH]; [reflexivity|].
  simpl forallb. intros H. apply andb_true_iff in H as [Hc Ht].
  specialize (IH Ht). rewrite expandWildcards_cons.
  unfold plainChar in Hc. apply andb_true_iff in Hc as [Hb Ho].
  simpl List.map. unfold termNode at 1.
  destruct (isStar c) eqn:E.
  - simpl. rewrite IH. reflexivity.
  - simpl. destruct (isBackslash c); [discriminate Hb|]. rewrite E.
    pose proof (expandWildcards_head term) as Hh.
    destruct (Service.expandWildcards term) as [|q r] eqn:Er.
    + rewrite IH. reflexivity.
    + rewrite Hh. rewrite IH. reflexivity.
Qed.

Lemma termNodes_consuming term : forallb consuming (List.map termNode term) = true.
Proof.
  induction term as [|c term IH]; [reflexivity|]. simpl. rewrite IH.
  unfold termNode. destruct (isStar c); reflexivity.
Qed.

Lemma findWordMatches_wildcard term words mode :
  charIn term "*"%char = true ->
  forallb plainChar term = true ->
  Service.findWordMatches term words mode
  = Done (List.filter (fun w => test true (List.map termNode term) (word w)) words).
Proof.
  intros Hstar Hplain. unfold Service.findWordMatches. rewrite Hstar.
  unfold Service.newRegExp, compile.
  rewrite inFragment_expandWildcards, parse_expandWildcards by exact Hplain.
  reflexivity.
Qed.





End Wildcards.

(** ** The service *)

Section ServiceFacts.
Import Js Service.

Lemma filter_sublist {A} (p q : A -> bool) (l : list A) :
  (forall x, p x = true -> q x = true) ->
  sublist (List.filter p l) (List.filter q l).
Proof.
  intros Hpq. induction l as [|x l IH]; simpl; [constructor|].
  destruct (p x) eqn:Hp.
  - rewrite (Hpq x Hp). constructor. exact IH.
  - destruct (q x); [constructor|]; exact IH.
Qed.

(** C6: for a term without the wildcard marker, every entry matched in
    exact mode is matched in intelligent mode; the exact matches are even
    a sub-list of the intelligent ones. *)
Theorem exact_matches_within_intelligent (term : jsstring) (words : list WordEntry) :
  charIn term "*"%char = false ->
  exists exact intelligent,
    findWordMatches term words Exact = Done exact
    /\ findWordMatches term words Intelligent = Done intelligent
    /\ (forall w, In w exact -> In w intelligent)
    /\ sublist exact intelligent.
Proof.
  intros Hstar. unfold findWordMatches. rewrite Hstar.
  eexists _, _. split; [reflexivity|]. split; [reflexivity|].
  assert (Hsub : sublist
    (List.filter (fun w => streq (word w) (toLowerCase term)) words)
    (List.filter (fun w => streq (word w) (toLowerCase term)
                           || streq (stemmed w) (Stemmer.stemWord (toLowerCase term))
                           || includes (word w) (toLowerCase term)) words)).
  { apply filter_sublist. intros x Hx. rewrite Hx. reflexivity. }
  split; [|exact Hsub].
  intros w Hw. apply list_elem_of_In. apply list_elem_of_In in Hw.
  eapply sublist_subseteq; eassumption.
Qed.

Lemma exact_matches_within_intelligent_witness :
  exists exact intelligent,
    findWordMatches "dog"
      (fst (processArticles ∅ scenarioA)) Exact = Done exact
    /\ findWordMatches "dog"
         (fst (processArticles ∅ scenarioA)) Intelligent = Done intelligent
    /\ (forall w, In w exact -> In w intelligent)
    /\ sublist exact intelligent.
Proof.
  apply (exact_matches_within_intelligent "dog"). vm_compute. reflexivity.
Defined.

(** C8: when [analyzeAllArticles] fails, the word cache is the one the
    call found, and the call found no cached result; a cached result is
    returned as it is and cannot fail. *)
Theorem failed_analysis_keeps_wordCache (corpus : list Article) (st st' : State)
        (reply : WorkerReply) (msg : jsstring) :
  analyzeAllArticles corpus st reply = (Thrown msg, st') ->
  wordCache st' = wordCache st
  /\ wordCache st !! cacheKey = None
  /\ forall k, wordCache st' !! k = wordCache st !! k.
Proof.
  unfold analyzeAllArticles.
  destruct (wordCache st !! cacheKey) as [cached|] eqn:Hc; [discriminate|].
  destruct (worker st) eqn:Hw.
  - unfold processWithWorker. rewrite Hw. simpl.
    destruct reply; simpl; intros H; inversion H; subst; simpl; auto.
  - destruct (processArticles (analyzerCache st) corpus) as [allWords cache'].
    discriminate.
Qed.

Lemma failed_analysis_keeps_wordCache_witness :
  wordCache (snd (analyzeAllArticles scenarioA (mkState ∅ true ∅) WorkerTimeout))
  = wordCache (mkState ∅ true ∅)
  /\ fst (analyzeAllArticles scenarioA (mkState ∅ true ∅) WorkerTimeout)
     = Thrown failedToAnalyze.
Proof.
  split; [|reflexivity].
  apply (failed_analysis_keeps_wordCache scenarioA (mkState ∅ true ∅) _
           WorkerTimeout failedToAnalyze).
  reflexivity.
Defined.

Lemma cached_analysis_is_returned (corpus : list Article) (st : State)
      (reply : WorkerReply) (cached : list WordEntry) :
  wordCache st !! cacheKey = Some cached ->
  analyzeAllArticles corpus st reply = (Done cached, st).
Proof. intros H. unfold analyzeAllArticles. rewrite H. reflexivity. Qed.


End ServiceFacts.

(** ** The two aggregation paths *)

Section Paths.
Import Js.

(** *** Conservation *)




(** *** What every entry records as its stem *)














(** *** The worker's words are in lower case *)

Section Pieces.
Variable P : ascii -> Prop.

Lemma Forall_dropWhile p s : Forall P s -> Forall P (dropWhile p s).
Proof.
  induction 1 as [|c s Hc Hs IH]; simpl; [constructor|].
  destruct (p c); [exact IH | constructor; assumption].
Qed.

Lemma Forall_trim s : Forall P s -> Forall P (trim s).
Proof.
  intros H. unfold trim, trimEnd, trimStart.
  apply List.Forall_rev, Forall_dropWhile, List.Forall_rev, Forall_dropWhile, H.
Qed.

Lemma Forall_collapseRuns cls by_ inRun s :
  P by_ -> Forall P s -> Forall P (collapseRuns cls by_ inRun s).
Proof.
  intros Hby Hs. revert inRun.
  induction Hs as [|c s Hc Hs IH]; intros inRun; simpl; [constructor|].
  destruct (cls c); [destruct inRun|]; try constructor; auto.
Qed.

Lemma Forall_splitCharFrom sep acc s :
  Forall P acc -> Forall P s -> Forall (Forall P) (splitCharFrom sep acc s).
Proof.
  intros Hacc Hs. revert acc Hacc.
  induction Hs as [|c s Hc Hs IH]; intros acc Hacc; simpl.
  - constructor; [apply List.Forall_rev, Hacc | constructor].
  - destruct (Ascii.eqb c sep).
    + constructor; [apply List.Forall_rev, Hacc | apply IH; constructor].
    + apply IH. constructor; assumption.
Qed.

End Pieces.

Lemma Worker_cleanText_lower (text : jsstring) :
  Forall lowerChar (Worker.cleanText text).
Proof.
  unfold Worker.cleanText.
  apply Forall_trim, Forall_collapseRuns; [reflexivity|].
  apply List.Forall_map, List.Forall_map, List.Forall_forall. intros c _.
  unfold lowerChar. destruct (TextAnalyzer.isPunctuation (toLowerChar c)).
  - reflexivity.
  - apply toLowerChar_idem.
Qed.

Lemma Worker_extractWords_lowered (text : jsstring) :
  Forall lowered (Worker.extractWords text).
Proof.
  unfold Worker.extractWords.
  apply List.Forall_forall. intros w Hw.
  apply List.filter_In in Hw as [Hw _].
  apply List.in_map_iff in Hw as [piece [<- Hpiece]].
  apply lowered_Forall, Forall_trim.
  pose proof (Forall_splitCharFrom lowerChar TextAnalyzer.space []
                (Worker.cleanText text) (List.Forall_nil _)
                (Worker_cleanText_lower text)) as H.
  rewrite List.Forall_forall in H. exact (H _ Hpiece).
Qed.

(** *** The two maps run in step *)







(** *** Equivalence *)




End Paths.

(** * Further properties *)

(** ** Insertion-ordered maps and sets *)

Section MoreJsMapFacts.
Import Js.
Context {V : Type}.

Lemma streq_false (a b : jsstring) : streq a b = false <-> a <> b.
Proof. unfold streq. apply bool_decide_eq_false. Qed.

Lemma JsMap_get_set (m : JsMap.t V) k v k' :
  JsMap.get (JsMap.set m k v) k' = if streq k k' then Some v else JsMap.get m k'.
Proof.
  induction m as [|[k0 v0] m IH]; simpl; [reflexivity|].
  destruct (streq k0 k) eqn:E0; simpl.
  - apply streq_true in E0. subst k0. destruct (streq k k'); reflexivity.
  - rewrite IH. destruct (streq k0 k') eqn:E1; [|reflexivity].
    apply streq_true in E1. subst k0.
    destruct (streq k k') eqn:E2; [|reflexivity].
    apply streq_true in E2. subst k'. rewrite streq_refl in E0. discriminate E0.
Qed.

Lemma JsMap_get_None (m : JsMap.t V) k :
  JsMap.get m k = None <-> ~ In k (keys m).
Proof.
  unfold keys. induction m as [|[k0 v0] m IH]; simpl; [tauto|].
  destruct (streq k0 k) eqn:E.
  - apply streq_true in E. split; [discriminate | intros H; exfalso; auto].
  - apply streq_false in E. rewrite IH. tauto.
Qed.

Lemma JsMap_keys_set (m : JsMap.t V) k v :
  keys (JsMap.set m k v)
  = match JsMap.get m k with
    | Some _ => keys m
    | None => keys m ++ [k]
    end.
Proof.
  unfold keys. induction m as [|[k0 v0] m IH]; simpl; [reflexivity|].
  destruct (streq k0 k) eqn:E; simpl.
  - apply streq_true in E. subst. reflexivity.
  - rewrite IH. destruct (JsMap.get m k); reflexivity.
Qed.

Lemma JsMap_keys_set_NoDup (m : JsMap.t V) k v :
  List.NoDup (keys m) -> List.NoDup (keys (JsMap.set m k v)).
Proof.
  intros Hnd. rewrite JsMap_keys_set.
  destruct (JsMap.get m k) eqn:Hget; [exact Hnd|].
  apply JsMap_get_None in Hget.
  apply List.NoDup_app; [exact Hnd | repeat constructor; simpl; tauto |].
  intros x Hx [ <- | [] ]. exact (Hget Hx).
Qed.

Lemma JsMap_In_get (m : JsMap.t V) k v :
  List.NoDup (keys m) -> In (k, v) m -> JsMap.get m k = Some v.
Proof.
  unfold keys. induction m as [|[k0 v0] m IH]; simpl; [tauto|].
  intros Hnd Hin. inversion Hnd as [|x l Hnotin Hnd']; subst.
  destruct Hin as [Heq|Hin].
  - inversion Heq; subst. rewrite streq_refl. reflexivity.
  - destruct (streq k0 k) eqn:E; [|auto].
    apply streq_true in E. subst. exfalso. apply Hnotin.
    apply List.in_map_iff. exists (k, v). auto.
Qed.

End MoreJsMapFacts.

Section SetFacts.
Import Js.

Lemma has_In (l : list jsstring) (x : jsstring) : has l x = true <-> In x l.
Proof.
  unfold has. rewrite List.existsb_exists. split.
  - intros (y & Hy & E). apply streq_true in E. subst. exact Hy.
  - intros H. exists x. split; [exact H | apply streq_refl].
Qed.

Lemma setAdd_NoDup (set : list jsstring) (x : jsstring) :
  List.NoDup set -> List.NoDup (setAdd set x).
Proof.
  intros Hnd. unfold setAdd. destruct (has set x) eqn:E; [exact Hnd|].
  apply List.NoDup_app; [exact Hnd | repeat constructor; simpl; tauto |].
  intros y Hy [ <- | [] ]. apply has_In in Hy. congruence.
Qed.

Lemma setAdd_In (set : list jsstring) (x y : jsstring) :
  In y (setAdd set x) <-> In y set \/ y = x.
Proof.
  unfold setAdd. destruct (has set x) eqn:E.
  - apply has_In in E. split; [auto|]. intros [ H | -> ]; assumption.
  - rewrite List.in_app_iff. simpl. split; intros [H|H]; auto.
    destruct H as [ <- | [] ]. auto.
Qed.

Lemma setAdd_head (set : list jsstring) (x a : jsstring) :
  head set = Some a -> head (setAdd set x) = Some a.
Proof.
  unfold setAdd. destruct (has set x); [auto|].
  destruct set; [discriminate | auto].
Qed.

End SetFacts.

(** ** The stemmer, further *)

Section MoreStemmerFacts.
Import Js Stemmer.













Lemma stemWord_of_lowered (w : jsstring) :
  3 <= length w -> stemWord (toLowerCase w) = stemWord w.
Proof.
  intros H. unfold stemWord. rewrite toLowerCase_length.
  destruct (Nat.leb_spec (length w) 2); [lia|].
  rewrite toLowerCase_idem. reflexivity.
Qed.

(** X2: for a word of three characters or more, and for every word whose
    lower-case form is a key of the irregular-verb table, [enhancedStem]
    gives the same answer whatever the case of the letters. *)
Theorem enhancedStem_ignores_case (w : jsstring) :
  3 <= length w \/ ownProperty IRREGULAR_VERBS (toLowerCase w) <> None ->
  enhancedStem (toLowerCase w) = enhancedStem w.
Proof.
  intros H. unfold enhancedStem. rewrite toLowerCase_idem.
  destruct (lookupIrregular (toLowerCase w)) as [v|] eqn:Hl; [reflexivity|].
  destruct H as [H|H].
  - rewrite stemWord_of_lowered by exact H. reflexivity.
  - exfalso. unfold lookupIrregular in Hl.
    destruct (ownProperty IRREGULAR_VERBS (toLowerCase w)); [discriminate|].
    apply H. reflexivity.
Qed.

Lemma enhancedStem_ignores_case_witness :
  enhancedStem (toLowerCase "WENT") = enhancedStem "WENT"
  /\ enhancedStem (toLowerCase "Ponies") = enhancedStem "Ponies".
Proof.
  split.
  - apply enhancedStem_ignores_case. right. vm_compute. discriminate.
  - apply enhancedStem_ignores_case. left. simpl. lia.
Defined.

End MoreStemmerFacts.

Section StemmingFacts.
Import Js Stemmer Stemming.

Lemma groupWord_get (groups : JsMap.t (list jsstring)) (w k : jsstring) :
  JsMap.get (groupWord groups w) k
  = if streq (stemWord w) k
    then Some (default [] (JsMap.get groups k) ++ [w])
    else JsMap.get groups k.
Proof.
  unfold groupWord.
  destruct (JsMap.get groups (stemWord w)) as [g|] eqn:Hg.
  - rewrite Hg, JsMap_get_set.
    destruct (streq (stemWord w) k) eqn:E; [|reflexivity].
    apply streq_true in E. subst k. rewrite Hg. reflexivity.
  - rewrite JsMap_get_set, streq_refl, JsMap_get_set, JsMap_get_set.
    destruct (streq (stemWord w) k) eqn:E; [|reflexivity].
    apply streq_true in E. subst k. rewrite Hg. reflexivity.
Qed.

Lemma groupWord_keys (groups : JsMap.t (list jsstring)) (w : jsstring) :
  List.NoDup (keys groups) -> List.NoDup (keys (groupWord groups w)).
Proof.
  intros H. unfold groupWord.
  destruct (JsMap.get groups (stemWord w)) as [g|] eqn:Hg.
  - rewrite Hg. apply JsMap_keys_set_NoDup, H.
  - rewrite JsMap_get_set, streq_refl.
    apply JsMap_keys_set_NoDup, JsMap_keys_set_NoDup, H.
Qed.

Lemma groups_get (words : list jsstring) :
  forall (groups : JsMap.t (list jsstring)) (k : jsstring),
    JsMap.get (List.fold_left groupWord words groups) k
    = match JsMap.get groups k, withStem k words with
      | None, [] => None
      | found, more => Some (default [] found ++ more)
      end.
Proof.
  unfold withStem.
  induction words as [|w words IH]; intros groups k; simpl.
  - destruct (JsMap.get groups k); [rewrite app_nil_r|]; reflexivity.
  - rewrite IH, groupWord_get.
    destruct (streq (stemWord w) k) eqn:E.
    + destruct (JsMap.get groups k); simpl; [rewrite <- app_assoc|]; reflexivity.
    + destruct (JsMap.get groups k); reflexivity.
Qed.

Lemma groups_keys (words : list jsstring) :
  forall groups : JsMap.t (list jsstring),
    List.NoDup (keys groups) ->
    List.NoDup (keys (List.fold_left groupWord words groups)).
Proof.
  induction words as [|w ws IH]; intros groups Hg; simpl; [exact Hg|].
  apply IH, groupWord_keys, Hg.
Qed.

(** X3: [groupByStem] partitions its input.  The group stored under a stem
    holds exactly the words of the input with that stem, in input order;
    a stem that no word has is not a key; and no key occurs twice. *)
Theorem groupByStem_partitions (words : list jsstring) :
  (forall stem, JsMap.get (groupByStem words) stem
                = match withStem stem words with
                  | [] => None
                  | group => Some group
                  end)
  /\ List.NoDup (keys (groupByStem words))
  /\ (forall stem group, In (stem, group) (groupByStem words) ->
        group = withStem stem words /\ group <> []).
Proof.
  assert (Hget : forall stem, JsMap.get (groupByStem words) stem
                   = match withStem stem words with
                     | [] => None
                     | group => Some group
                     end).
  { intros stem. unfold groupByStem. rewrite groups_get. simpl.
    destruct (withStem stem words); reflexivity. }
  assert (Hnd : List.NoDup (keys (groupByStem words))).
  { unfold groupByStem. apply groups_keys. constructor. }
  split; [exact Hget|]. split; [exact Hnd|].
  intros stem group Hin. apply (JsMap_In_get _ _ _ Hnd) in Hin.
  rewrite Hget in Hin. destruct (withStem stem words) eqn:E; [discriminate|].
  inversion Hin; subst. split; [reflexivity | discriminate].
Qed.

Lemma addVariations_NoDup stem variations suffix :
  List.NoDup variations -> List.NoDup (addVariations stem variations suffix).
Proof.
  intros H. unfold addVariations.
  repeat match goal with
         | |- List.NoDup (if ?c then _ else _) => destruct c
         | |- List.NoDup (setAdd _ _) => apply setAdd_NoDup
         end; exact H.
Qed.

Lemma addVariations_keeps stem variations suffix x :
  In x variations -> In x (addVariations stem variations suffix).
Proof.
  intros H. unfold addVariations.
  repeat match goal with
         | |- In _ (if ?c then _ else _) => destruct c
         | |- In _ (setAdd _ _) => apply setAdd_In; left
         end; exact H.
Qed.

Lemma addVariations_head stem variations suffix a :
  head variations = Some a -> head (addVariations stem variations suffix) = Some a.
Proof.
  intros H. unfold addVariations.
  repeat match goal with
         | |- head (if ?c then _ else _) = _ => destruct c
         | |- head (setAdd _ _) = _ => apply setAdd_head
         end; exact H.
Qed.

(** X4: the variations of a word are free of duplicates, begin with the
    lower-cased word, and contain the stem and the stem followed by each of
    the nine suffixes. *)
Theorem getWordVariations_distinct (w : jsstring) :
  List.NoDup (getWordVariations w)
  /\ head (getWordVariations w) = Some (toLowerCase w)
  /\ In (stemWord w) (getWordVariations w)
  /\ (forall suffix, In suffix suffixes ->
        In (stemWord w ++ suffix) (getWordVariations w)).
Proof.
  unfold getWordVariations.
  set (start := setAdd (setAdd [] (toLowerCase w)) (stemWord w)).
  assert (Hfold : forall l vs,
            (List.NoDup vs -> List.NoDup (List.fold_left (addVariations (stemWord w)) l vs))
            /\ (forall a, head vs = Some a ->
                  head (List.fold_left (addVariations (stemWord w)) l vs) = Some a)
            /\ (forall x, In x vs ->
                  In x (List.fold_left (addVariations (stemWord w)) l vs))
            /\ (forall suffix, In suffix l ->
                  In (stemWord w ++ suffix)
                     (List.fold_left (addVariations (stemWord w)) l vs))).
  { induction l as [|sfx l IH]; intros vs; simpl.
    - repeat split; auto. intros suffix [].
    - destruct (IH (addVariations (stemWord w) vs sfx)) as (I1 & I2 & I3 & I4).
      repeat split.
      + intros H. apply I1, addVariations_NoDup, H.
      + intros a H. apply I2, addVariations_head, H.
      + intros x H. apply I3, addVariations_keeps, H.
      + intros suffix [ <- | H ]; [|apply I4, H].
        apply I3. unfold addVariations.
        repeat match goal with
               | |- In _ (if ?c then _ else _) => destruct c
               | |- In ?x (setAdd _ ?x) => apply setAdd_In; right; reflexivity
               | |- In _ (setAdd _ _) => apply setAdd_In; left
               end. }
  destruct (Hfold suffixes start) as (H1 & H2 & H3 & H4).
  split; [apply H1; subst start; apply setAdd_NoDup, setAdd_NoDup; constructor|].
  split; [apply H2; subst start; apply setAdd_head; reflexivity|].
  split; [apply H3; subst start; apply setAdd_In; right; reflexivity|].
  exact H4.
Qed.

End StemmingFacts.

(** ** The tokenizer *)

Section TokenizerFacts.
Import Js TextAnalyzer.

Lemma kept_replaced (c : ascii) : kept (if isPunctuation c then space else c).
Proof.
  unfold kept. destruct (isPunctuation c) eqn:E; [right; reflexivity | left; exact E].
Qed.

Lemma kept_space : kept space.
Proof. right. reflexivity. Qed.

Lemma kept_not_hyphen (c : ascii) : kept c -> Ascii.eqb c "-" = false.
Proof.
  intros [H| -> ]; [|reflexivity].
  destruct c as [[] [] [] [] [] [] [] []]; try reflexivity; vm_compute in H; discriminate H.
Qed.

Lemma kept_not_terminator (c : ascii) : kept c -> charIn ".!?" c = false.
Proof.
  intros [H| -> ]; [|reflexivity].
  destruct c as [[] [] [] [] [] [] [] []]; try reflexivity; vm_compute in H; discriminate H.
Qed.

Lemma cleanText_kept (text : jsstring) : Forall kept (cleanText text).
Proof.
  unfold cleanText.
  apply Forall_trim, Forall_collapseRuns; [apply kept_space|].
  apply List.Forall_map, List.Forall_forall. intros c _. apply kept_replaced.
Qed.

Lemma Forall_splitRunsFrom (P : ascii -> Prop) sep inRun acc s :
  Forall P acc -> Forall P s -> Forall (Forall P) (splitRunsFrom sep inRun acc s).
Proof.
  intros Hacc Hs. revert inRun acc Hacc.
  induction Hs as [|c s Hc Hs IH]; intros inRun acc Hacc; simpl.
  - constructor; [apply List.Forall_rev, Hacc | constructor].
  - destruct (sep c).
    + destruct inRun; [apply IH, Hacc|].
      constructor; [apply List.Forall_rev, Hacc | apply IH; constructor].
    + apply IH. constructor; assumption.
Qed.

Lemma splitRunsFrom_no_separator sep inRun acc s :
  Forall (fun c => sep c = false) s ->
  splitRunsFrom sep inRun acc s = [rev acc ++ s].
Proof.
  intros Hs. revert inRun acc.
  induction Hs as [|c s Hc Hs IH]; intros inRun acc; simpl.
  - rewrite app_nil_r. reflexivity.
  - rewrite Hc, IH. simpl. rewrite <- app_assoc. reflexivity.
Qed.

Lemma splitCharFrom_no_separator sep acc s :
  Forall (fun c => Ascii.eqb c sep = false) s ->
  splitCharFrom sep acc s = [rev acc ++ s].
Proof.
  intros Hs. revert acc.
  induction Hs as [|c s Hc Hs IH]; intros acc; simpl.
  - rewrite app_nil_r. reflexivity.
  - rewrite Hc, IH. simpl. rewrite <- app_assoc. reflexivity.
Qed.

Lemma Forall_stripLeading (P : ascii -> Prop) p s :
  Forall P s -> Forall P (stripLeading p s).
Proof.
  intros H. destruct H as [|c s Hc Hs]; simpl; [constructor|].
  destruct (p c); [exact Hs | constructor; assumption].
Qed.

Lemma Forall_stripTrailing (P : ascii -> Prop) p s :
  Forall P s -> Forall P (stripTrailing p s).
Proof.
  intros H. unfold stripTrailing. destruct (fromEnd 1 s) as [c|]; [|exact H].
  destruct (p c); [|exact H]. unfold dropLast. apply Forall_take, H.
Qed.

Lemma Forall_cleanWord (P : ascii -> Prop) w : Forall P w -> Forall P (cleanWord w).
Proof.
  intros H. unfold cleanWord.
  apply Forall_trim, Forall_stripTrailing, Forall_stripTrailing, Forall_stripLeading, H.
Qed.

Lemma splitIntoSentences_kept (text : jsstring) :
  Forall (Forall kept) (splitIntoSentences (cleanText text)).
Proof.
  unfold splitIntoSentences. apply List.Forall_forall. intros s Hs.
  apply List.filter_In in Hs as [Hs _].
  apply List.in_map_iff in Hs as (piece & <- & Hpiece).
  apply Forall_trim.
  pose proof (Forall_splitRunsFrom kept (charIn ".!?") false [] (cleanText text)
                (List.Forall_nil _) (cleanText_kept text)) as H.
  rewrite List.Forall_forall in H. exact (H _ Hpiece).
Qed.

(** Where the words of [collect] come from. *)
Lemma sentenceWords_In o index words i t :
  In (i, t) (sentenceWords o index words) ->
  exists w, In w words /\ t = toLowerCase (cleanWord w)
            /\ isValidWord (cleanWord w) (minLength o) (includeStopWords o) = true.
Proof.
  revert index. induction words as [|w words IH]; intros index; simpl; [tauto|].
  destruct (isValidWord (cleanWord w) (minLength o) (includeStopWords o)) eqn:E.
  - intros [H|H].
    + inversion H; subst. exists w. auto.
    + destruct (IH _ H) as (w' & Hin & Ht & Hv). exists w'. auto.
  - intros H. destruct (IH _ H) as (w' & Hin & Ht & Hv). exists w'. auto.
Qed.

Lemma collect_In o sentenceIndex globalPosition sentences info :
  In info (collect o sentenceIndex globalPosition sentences) ->
  exists sentence w,
    In sentence sentences /\ In w (splitRuns isSpace sentence)
    /\ wi_word info = toLowerCase (cleanWord w)
    /\ isValidWord (cleanWord w) (minLength o) (includeStopWords o) = true
    /\ sentenceIndex <= wi_sentence info < sentenceIndex + length sentences.
Proof.
  revert sentenceIndex globalPosition.
  induction sentences as [|sentence rest IH]; intros si gp; simpl; [tauto|].
  rewrite List.in_app_iff. intros [H|H].
  - apply List.in_map_iff in H as ([i t] & <- & Hin).
    apply sentenceWords_In in Hin as (w & Hw & Ht & Hv).
    apply List.filter_In in Hw as [Hw _].
    exists sentence, w. simpl. repeat split; auto; lia.
  - destruct (IH _ _ H) as (s & w & Hs & Hw & Ht & Hv & Hi).
    exists s, w. repeat split; auto; lia.
Qed.

Lemma asWords_computeWords text o :
  asWords (computeWords text o)
  = List.map wi_word (collect o 0 0 (splitIntoSentences (cleanText text))).
Proof. unfold computeWords. destruct (includePositions o); reflexivity. Qed.

Lemma isLetter_toLowerChar (c : ascii) : isLetter (toLowerChar c) = isLetter c.
Proof. destruct c as [[] [] [] [] [] [] [] []]; vm_compute; reflexivity. Qed.

Lemma isApostrophe_toLowerChar (c : ascii) :
  isApostrophe (toLowerChar c) = isApostrophe c.
Proof. destruct c as [[] [] [] [] [] [] [] []]; vm_compute; reflexivity. Qed.

Lemma tokenChar_toLowerChar (c : ascii) :
  isLetter c || isApostrophe c = true -> tokenChar (toLowerChar c) = true.
Proof.
  destruct c as [[] [] [] [] [] [] [] []]; vm_compute; intros H;
    first [reflexivity | discriminate H].
Qed.

Lemma fromEnd_1_map (f : ascii -> ascii) (s : jsstring) :
  fromEnd 1 (List.map f s) = f <$> fromEnd 1 s.
Proof.
  unfold fromEnd. rewrite List.length_map.
  destruct ((1 <=? length s) && (1 <=? 1)); [|reflexivity].
  apply list_lookup_fmap.
Qed.

Lemma dropLast_map (f : ascii -> ascii) (s : jsstring) :
  dropLast (List.map f s) = List.map f (dropLast s).
Proof. unfold dropLast. rewrite List.length_map. apply List.firstn_map. Qed.

Lemma forallb_map_same (p : ascii -> bool) (f : ascii -> ascii) (l : jsstring) :
  (forall x, p (f x) = p x) -> forallb p (List.map f l) = forallb p l.
Proof.
  intros H. induction l as [|x l IH]; simpl; [reflexivity|].
  rewrite H, IH. reflexivity.
Qed.

Lemma VALID_WORD_toLowerCase (w : jsstring) :
  VALID_WORD (toLowerCase w) = VALID_WORD w.
Proof.
  unfold toLowerCase. destruct w as [|c [|d r]]; simpl; [reflexivity| |].
  - apply isLetter_toLowerChar.
  - change (toLowerChar d :: List.map toLowerChar r)
      with (List.map toLowerChar (d :: r)).
    rewrite dropLast_map, fromEnd_1_map, isLetter_toLowerChar.
    rewrite forallb_map_same
      by (intros x; rewrite isLetter_toLowerChar, isApostrophe_toLowerChar;
          reflexivity).
    f_equal.
    destruct (fromEnd 1 (d :: r)); simpl; [apply isLetter_toLowerChar | reflexivity].
Qed.

(** The characters of a word that [VALID_WORD] accepts. *)
Lemma VALID_WORD_chars (w : jsstring) :
  VALID_WORD w = true -> Forall (fun c => isLetter c || isApostrophe c = true) w.
Proof.
  destruct w as [|c r]; simpl; [discriminate|].
  destruct r as [|d r'].
  - intros H. constructor; [rewrite H; reflexivity | constructor].
  - intros H. apply andb_true_iff in H as [H Hlast].
    apply andb_true_iff in H as [Hc Hmid].
    constructor; [rewrite Hc; reflexivity|].
    destruct (fromEnd 1 (d :: r')) as [l|] eqn:El; [|discriminate].
    assert (Hsplit : d :: r' = dropLast (d :: r') ++ [l]).
    { unfold fromEnd in El. unfold dropLast.
      destruct ((1 <=? length (d :: r')) && (1 <=? 1)); [|discriminate].
      rewrite <- (take_drop (length (d :: r') - 1) (d :: r')) at 1.
      f_equal. apply drop_S in El.
      rewrite El. replace (S (length (d :: r') - 1)) with (length (d :: r'))
        by (simpl; lia).
      rewrite drop_all. reflexivity. }
    rewrite Hsplit. apply Forall_app. split.
    + apply List.Forall_forall. intros x Hx.
      rewrite List.forallb_forall in Hmid. exact (Hmid x Hx).
    + constructor; [rewrite Hlast; reflexivity | constructor].
Qed.

Lemma HYPHENATED_needs_hyphen (w : jsstring) :
  Forall (fun c => Ascii.eqb c "-" = false) w -> HYPHENATED w = false.
Proof.
  intros H. unfold HYPHENATED, splitChar.
  rewrite splitCharFrom_no_separator by exact H. reflexivity.
Qed.

(** X5: every word that [extractWords] computes is made of lower-case
    letters and apostrophes, passes [VALID_WORD] (it begins and ends with a
    letter), is no contraction fragment, has at least [minLength]
    characters and, unless stop words are asked for, is no stop word. *)
Theorem computed_words_are_valid (text : jsstring) (o : Options) :
  Forall (fun t =>
            VALID_WORD t = true
            /\ forallb tokenChar t = true
            /\ toLowerCase t = t
            /\ CONTRACTION t = false
            /\ minLength o <= length t
            /\ (includeStopWords o = false -> has STOP_WORDS t = false))
         (asWords (computeWords text o)).
Proof.
  rewrite asWords_computeWords. apply List.Forall_forall. intros t Ht.
  apply List.in_map_iff in Ht as (info & <- & Hinfo).
  apply collect_In in Hinfo as (sentence & w & Hs & Hw & -> & Hvalid & _).
  assert (Hkept : Forall kept (cleanWord w)).
  { apply Forall_cleanWord.
    pose proof (splitIntoSentences_kept text) as H1.
    rewrite List.Forall_forall in H1. specialize (H1 _ Hs).
    pose proof (Forall_splitRunsFrom kept isSpace false [] sentence
                  (List.Forall_nil _) H1) as H2.
    rewrite List.Forall_forall in H2. exact (H2 _ Hw). }
  assert (Hhyphen : HYPHENATED (cleanWord w) = false).
  { apply HYPHENATED_needs_hyphen. eapply List.Forall_impl; [|exact Hkept].
    intros c. apply kept_not_hyphen. }
  unfold isValidWord in Hvalid. rewrite Hhyphen in Hvalid.
  destruct (Nat.ltb_spec (length (cleanWord w)) (minLength o)) as [|Hlen];
    [discriminate|].
  destruct (CONTRACTION (cleanWord w)) eqn:Hc; [discriminate|].
  destruct (VALID_WORD (cleanWord w)) eqn:Hv; [|discriminate].
  cbn [negb andb] in Hvalid.
  split; [rewrite VALID_WORD_toLowerCase; exact Hv|].
  split.
  { apply List.forallb_forall. intros x Hx.
    apply List.in_map_iff in Hx as (c & <- & Hc').
    apply tokenChar_toLowerChar.
    pose proof (VALID_WORD_chars _ Hv) as Hchars.
    rewrite List.Forall_forall in Hchars. exact (Hchars _ Hc'). }
  split; [apply toLowerCase_idem|].
  split; [unfold CONTRACTION in *; rewrite toLowerCase_idem; exact Hc|].
  split; [rewrite toLowerCase_length; exact Hlen|].
  intros Hstop. rewrite Hstop in Hvalid. cbn [negb andb] in Hvalid.
  destruct (has STOP_WORDS (toLowerCase (cleanWord w))); [discriminate | reflexivity].
Qed.

Lemma computed_words_are_valid_witness :
  has STOP_WORDS "dog" = false.
Proof.
  pose proof (computed_words_are_valid "The dog" defaultOptions) as H.
  vm_compute asWords in H. inversion H as [|t l Ht _]; subst.
  apply Ht. reflexivity.
Defined.

Lemma cleaned_text_has_no_terminator (text : jsstring) :
  splitRuns (charIn ".!?") (cleanText text) = [cleanText text].
Proof.
  unfold splitRuns. rewrite splitRunsFrom_no_separator; [reflexivity|].
  eapply List.Forall_impl; [|apply cleanText_kept].
  intros c. apply kept_not_terminator.
Qed.

Lemma sentenceInfos_length index sentences :
  length (Sentences.sentenceInfos index sentences) = length sentences.
Proof.
  revert index. induction sentences as [|s rest IH]; intros index; simpl;
    [reflexivity|]. rewrite IH. reflexivity.
Qed.

Lemma one_sentence_at_most (text : jsstring) :
  length (splitIntoSentences (cleanText text)) <= 1.
Proof.
  unfold splitIntoSentences. rewrite cleaned_text_has_no_terminator. simpl.
  destruct (nonEmpty _); simpl; lia.
Qed.

(** X6: [cleanText] has replaced every [.], [!] and [?] by a space before
    [splitIntoSentences] runs, so the analyzer never sees more than one
    sentence: [extractSentences] returns at most one sentence, and every
    word position that [extractWords] reports has sentence index 0. *)
Theorem analyzer_sees_one_sentence (text : jsstring) :
  length (splitIntoSentences (cleanText text)) <= 1
  /\ length (Sentences.extractSentences text) <= 1
  /\ forall o infos, computeWords text o = Infos infos ->
       Forall (fun info => wi_sentence info = 0) infos.
Proof.
  split; [apply one_sentence_at_most|].
  split.
  { unfold Sentences.extractSentences. rewrite sentenceInfos_length.
    apply one_sentence_at_most. }
  intros o infos H. unfold computeWords in H.
  destruct (includePositions o); [|discriminate]. inversion H; subst.
  apply List.Forall_forall. intros info Hin.
  apply collect_In in Hin as (_ & _ & _ & _ & _ & _ & Hi).
  pose proof (one_sentence_at_most text). lia.
Qed.

Lemma analyzer_sees_one_sentence_witness :
  Forall (fun info => wi_sentence info = 0)
         (match computeWords "One dog. Two cats! Three?" (mkOptions false 1 true) with
          | Infos infos => infos
          | Words _ => []
          end).
Proof.
  destruct (analyzer_sees_one_sentence "One dog. Two cats! Three?") as (_ & _ & H).
  apply (H (mkOptions false 1 true)). reflexivity.
Defined.

(** X7: a repeated call is served from the cache: it returns what the
    first call returned and leaves the cache as the first call left it. *)
Theorem extractWords_repeated (cache : Cache) (text : jsstring) (o : Options) :
  extractWords (snd (extractWords cache text o)) text o
  = (fst (extractWords cache text o), snd (extractWords cache text o)).
Proof.
  unfold extractWords.
  destruct (cache !! cacheKey text o) as [hit|] eqn:H; simpl.
  - rewrite H. reflexivity.
  - rewrite lookup_insert_eq. reflexivity.
Qed.

(** X8: on an analyzer whose earlier calls, made with the same options,
    were on texts that either are the text itself or differ from it within
    their first hundred characters, a call returns the words computed from
    its own text. *)
Theorem extractWords_own_text (o : Options) (texts : list jsstring) (text : jsstring) :
  (forall t, In t texts -> take 100 t = take 100 text -> t = text) ->
  fst (extractWords (cacheAfter o texts ∅) text o) = computeWords text o.
Proof. apply extractWords_own_words. Qed.

Lemma extractWords_own_text_witness :
  fst (extractWords (cacheAfter defaultOptions [lit "cats purr"; lit "dogs bark"] ∅)
                    "dogs bark" defaultOptions)
  = computeWords "dogs bark" defaultOptions.
Proof.
  apply extractWords_own_text.
  intros t [ <- |[ <- |[]]] H; [vm_compute in H; discriminate H | reflexivity].
Defined.

End TokenizerFacts.

(** ** Aggregation, further *)

Section SortedFacts.
Context {A : Type} (key : A -> nat).

Lemma insertDesc_Forall (P : A -> Prop) x l :
  P x -> Forall P l -> Forall P (insertDesc key x l).
Proof.
  intros Hx Hl. induction Hl as [|y l Hy Hl IH]; simpl.
  - constructor; [exact Hx | constructor].
  - destruct (key x <? key y); constructor; auto.
Qed.

Lemma insertDesc_descending x l :
  descending key l -> descending key (insertDesc key x l).
Proof.
  unfold descending. intros Hl.
  induction Hl as [|y l Hl IH Hy]; simpl.
  - constructor; constructor.
  - destruct (Nat.ltb_spec (key x) (key y)).
    + constructor; [exact IH|]. apply insertDesc_Forall; [lia | exact Hy].
    + constructor; [constructor; assumption|].
      constructor; [exact H|].
      eapply List.Forall_impl; [|exact Hy]. simpl. intros z Hz. lia.
Qed.

Lemma sortDesc_descending l : descending key (sortDesc key l).
Proof.
  induction l as [|x l IH]; simpl; [constructor|].
  apply insertDesc_descending, IH.
Qed.





End SortedFacts.

Section AggregationFacts.
Import Js.




(** *** What the map holds for each word *)









Lemma recorded_not_key (m : JsMap.t WordEntry) k :
  ~ In k (keys m) -> recorded m k = 0.
Proof.
  intros H. apply JsMap_get_None in H. unfold recorded. rewrite H. reflexivity.
Qed.





(** *** What every entry satisfies *)






End AggregationFacts.

(** ** The worker, further *)

Section WorkerFacts.
Import Js.

Lemma map_seq_increasing (g : nat -> nat) (start len : nat) :
  (forall i j, start <= i -> i < j -> j < start + len -> g i < g j) ->
  StronglySorted lt (List.map g (seq start len)).
Proof.
  revert start. induction len as [|len IH]; intros start Hg; simpl; [constructor|].
  constructor.
  - apply IH. intros i j Hi Hij Hj. apply Hg; lia.
  - apply List.Forall_map, List.Forall_forall. intros j Hj.
    apply List.in_seq in Hj. apply Hg; lia.
Qed.

Lemma batch_count_tight (n : nat) :
  0 < n -> ((n + 9) / 10 - 1) * 10 < n /\ 1 <= (n + 9) / 10.
Proof.
  intros Hn.
  pose proof (Nat.div_mod_eq (n + 9) 10) as H.
  pose proof (Nat.mod_upper_bound (n + 9) 10) as Hm. lia.
Qed.

(** X12: batching changes nothing in the results, which are the items
    mapped in order; the progress reports grow strictly, none exceeds the
    total, and for a non-empty input the last one reports every item. *)
Theorem processBatches_reports {T R} (items : list T) (processor : T -> R) :
  fst (Worker.processBatches items processor) = List.map processor items
  /\ StronglySorted lt (List.map fst (snd (Worker.processBatches items processor)))
  /\ Forall (fun p => 1 <= fst p <= snd p /\ snd p = length items)
            (snd (Worker.processBatches items processor))
  /\ (items <> [] ->
      List.last (snd (Worker.processBatches items processor)) (0, 0)
      = (length items, length items))
  /\ (items = [] -> snd (Worker.processBatches items processor) = []).
Proof.
  split; [apply processBatches_results|].
  unfold Worker.processBatches, Worker.batchStarts, Worker.BATCH_SIZE.
  cbn [fst snd]. change (10 - 1) with 9.
  set (n := length items).
  rewrite !List.map_map. cbn [fst snd].
  destruct (Nat.eq_dec n 0) as [Hz|Hnz].
  { rewrite Hz. change ((0 + 9) / 10) with 0. cbn [seq List.map].
    repeat split; constructor. }
  destruct (batch_count_tight n ltac:(lia)) as [Htight Hpos].
  split; [|split; [|split]].
  - apply map_seq_increasing. intros i j _ Hij Hj. lia.
  - apply List.Forall_map, List.Forall_forall. intros k Hk.
    apply List.in_seq in Hk. simpl. lia.
  - intros _. destruct ((n + 9) / 10) as [|m] eqn:Hm; [lia|].
    rewrite List.seq_S, List.map_app. simpl. rewrite List.last_last.
    f_equal.
    pose proof (Nat.div_mod_eq (n + 9) 10) as H.
    pose proof (Nat.mod_upper_bound (n + 9) 10) as Hmod. lia.
  - intros ->. subst n. simpl in Hnz. congruence.
Qed.

Lemma processBatches_reports_witness :
  List.last (snd (Worker.processBatches scenarioA Worker.processArticle)) (0, 0)
  = (length scenarioA, length scenarioA).
Proof.
  apply (processBatches_reports scenarioA Worker.processArticle). discriminate.
Defined.

Lemma filter_all {A} (p : A -> bool) (l : list A) :
  Forall (fun x => p x = true) l -> List.filter p l = l.
Proof.
  intros H. induction H as [|x l Hx Hl IH]; simpl; [reflexivity|].
  rewrite Hx, IH. reflexivity.
Qed.

Lemma filter_Forall {A} (p : A -> bool) (l : list A) :
  Forall (fun x => p x = true) (List.filter p l).
Proof.
  apply List.Forall_forall. intros x Hx. apply List.filter_In in Hx. tauto.
Qed.

Lemma filter_is_sublist {A} (p : A -> bool) (l : list A) :
  sublist (List.filter p l) l.
Proof.
  induction l as [|x l IH]; simpl; [constructor|].
  destruct (p x); constructor; exact IH.
Qed.

(** X13: the list the worker keeps is a sub-list of the analysis, in the
    same order, of [maxWords] entries at most, none of which has one
    occurrence in one article; optimizing it again changes nothing. *)
Theorem optimizeWordList_prunes (ws : list WordEntry) (maxWords : nat) :
  sublist (Worker.optimizeWordList ws maxWords) ws
  /\ length (Worker.optimizeWordList ws maxWords) <= maxWords
  /\ Forall (fun w => 1 < frequency w \/ 1 < length (articles w))
            (Worker.optimizeWordList ws maxWords)
  /\ Worker.optimizeWordList (Worker.optimizeWordList ws maxWords) maxWords
     = Worker.optimizeWordList ws maxWords.
Proof.
  unfold Worker.optimizeWordList.
  set (p := fun w : WordEntry => (1 <? frequency w) || (1 <? length (articles w))).
  split; [|split; [|split]].
  - transitivity (List.filter p ws); [apply sublist_take | apply filter_is_sublist].
  - rewrite length_take. lia.
  - apply Forall_take. eapply List.Forall_impl; [|apply (filter_Forall p)].
    intros w Hw. subst p. simpl in Hw.
    apply orb_true_iff in Hw as [Hw|Hw]; apply Nat.ltb_lt in Hw; tauto.
  - rewrite (filter_all p (take maxWords (List.filter p ws))).
    + rewrite take_take. f_equal. lia.
    + apply Forall_take, filter_Forall.
Qed.

(** X14: every token of the worker has at least two characters, all of them
    lower-case letters or apostrophes, the first and the last a letter, and
    is no stop word. *)
Theorem Worker_tokens_are_words (text w : jsstring) :
  In w (Worker.extractWords text) ->
  2 <= length w
  /\ forallb tokenChar w = true
  /\ TextAnalyzer.VALID_WORD w = true
  /\ ~ In w Worker.STOP_WORDS.
Proof.
  intros Hin.
  pose proof (Worker_extractWords_lowered text) as Hlow.
  rewrite List.Forall_forall in Hlow. specialize (Hlow w Hin).
  unfold Worker.extractWords in Hin. apply List.filter_In in Hin as [_ Hp].
  apply andb_true_iff in Hp as [Hp Hstop].
  apply andb_true_iff in Hp as [Hlen Hvalid].
  split; [apply Nat.leb_le, Hlen|].
  split; [|split; [exact Hvalid|]].
  - apply List.forallb_forall. intros c Hc.
    pose proof (VALID_WORD_chars w Hvalid) as Hchars.
    rewrite List.Forall_forall in Hchars. specialize (Hchars c Hc).
    apply lowered_Forall in Hlow. rewrite List.Forall_forall in Hlow.
    rewrite <- (Hlow c Hc). apply tokenChar_toLowerChar, Hchars.
  - intros Habs. apply has_In in Habs. rewrite Habs in Hstop. discriminate.
Qed.

Lemma Worker_tokens_are_words_witness :
  2 <= length (lit "dog")
  /\ forallb tokenChar (lit "dog") = true
  /\ TextAnalyzer.VALID_WORD "dog" = true
  /\ ~ In (lit "dog") Worker.STOP_WORDS.
Proof.
  apply (Worker_tokens_are_words "The dog barks."). vm_compute. tauto.
Defined.

End WorkerFacts.

(** ** The service, further *)

Section MoreServiceFacts.
Import Js RegExp Service.

Lemma dropWhile_nil p s : dropWhile p s = [] <-> forallb p s = true.
Proof.
  induction s as [|c s IH]; simpl; [tauto|].
  destruct (p c); simpl; [exact IH|]. split; discriminate.
Qed.

Lemma dropWhile_head p s :
  match dropWhile p s with
  | c :: _ => p c = false
  | [] => True
  end.
Proof.
  induction s as [|c s IH]; simpl; [exact I|].
  destruct (p c) eqn:E; [exact IH | exact E].
Qed.

Lemma trim_blank (s : jsstring) : trim s = [] <-> forallb isSpace s = true.
Proof.
  unfold trim, trimEnd, trimStart. split.
  - intros H. apply dropWhile_nil.
    pose proof (dropWhile_head isSpace s) as Hh.
    destruct (dropWhile isSpace s) as [|c r]; [reflexivity|].
    apply (f_equal (@rev ascii)) in H. rewrite rev_involutive in H. simpl in H.
    apply dropWhile_nil in H. rewrite forallb_forall in H.
    rewrite (H c) in Hh; [discriminate|].
    apply List.in_or_app. right. left. reflexivity.
  - intros H. apply dropWhile_nil in H. rewrite H. reflexivity.
Qed.

Lemma rethrow_not_other {A} (msg other : jsstring) (o : outcome A) :
  msg <> other -> rethrow msg o <> Thrown other.
Proof. intros Hne. destruct o; simpl; congruence. Qed.

(** X15: a query of white space only, the empty one included, is refused
    with [Search query is required] before anything is analyzed, so the
    state stays as it was; no other query ends with that message. *)
Theorem searchWords_requires_query (corpus : list Article) (st : State)
        (reply : WorkerReply) (options : SearchOptions) :
  (fst (searchWords corpus st reply options) = Thrown "Search query is required"
   <-> forallb isSpace (query options) = true)
  /\ (forallb isSpace (query options) = true ->
      snd (searchWords corpus st reply options) = st).
Proof.
  unfold searchWords.
  destruct (streq (trim (query options)) []) eqn:E.
  - apply streq_true, trim_blank in E. simpl. tauto.
  - assert (Hnb : forallb isSpace (query options) <> true).
    { intros H. apply trim_blank in H. rewrite H, streq_refl in E. discriminate. }
    destruct (analyzeAllArticles corpus st reply) as [analyzed st'].
    simpl. split; [|tauto]. split; [|tauto].
    intros H. exfalso. revert H. apply rethrow_not_other. discriminate.
Qed.

Lemma searchWords_requires_query_witness :
  snd (searchWords scenarioA (mkState ∅ false ∅) WorkerTimeout
         (mkSearchOptions "  " Exact (mkFilters 0 false [] [])))
  = mkState ∅ false ∅.
Proof.
  apply (searchWords_requires_query scenarioA (mkState ∅ false ∅) WorkerTimeout
           (mkSearchOptions "  " Exact (mkFilters 0 false [] []))).
  reflexivity.
Defined.

Lemma analyzeAllArticles_again (corpus : list Article) (st st' : State)
      (reply reply' : WorkerReply) (ws : list WordEntry) :
  analyzeAllArticles corpus st reply = (Done ws, st') ->
  analyzeAllArticles corpus st' reply' = (Done ws, st').
Proof.
  unfold analyzeAllArticles.
  destruct (wordCache st !! cacheKey) as [cached|] eqn:Hc.
  - intros H. inversion H; subst. rewrite Hc. reflexivity.
  - destruct (worker st) eqn:Hw.
    + destruct (processWithWorker st reply) as [allWords|msg| |] eqn:Hp;
        simpl; intros H; inversion H; subst; simpl.
      rewrite lookup_insert_eq. reflexivity.
    + destruct (processArticles (analyzerCache st) corpus) as [allWords cache'].
      intros H. inversion H; subst. simpl.
      rewrite lookup_insert_eq. reflexivity.
Qed.

(** X16: once [analyzeAllArticles] has succeeded, every later call returns
    the same list and leaves the state alone, whatever the worker would
    answer. *)
Theorem analyzeAllArticles_settles (corpus : list Article) (st st' : State)
        (reply reply' : WorkerReply) (ws : list WordEntry) :
  analyzeAllArticles corpus st reply = (Done ws, st') ->
  analyzeAllArticles corpus st' reply' = (Done ws, st').
Proof. apply analyzeAllArticles_again. Qed.

Lemma analyzeAllArticles_settles_witness :
  analyzeAllArticles scenarioA
    (snd (analyzeAllArticles scenarioA (mkState ∅ false ∅) WorkerTimeout))
    WorkerStalls
  = (Done (fst (processArticles ∅ scenarioA)),
     snd (analyzeAllArticles scenarioA (mkState ∅ false ∅) WorkerTimeout)).
Proof.
  apply (analyzeAllArticles_settles scenarioA (mkState ∅ false ∅) _
           WorkerTimeout WorkerStalls).
  vm_compute. reflexivity.
Defined.

(** *** Filters *)

Lemma filter_filter_and {A} (p q : A -> bool) (l : list A) :
  List.filter q (List.filter p l) = List.filter (fun x => p x && q x) l.
Proof.
  induction l as [|x l IH]; simpl; [reflexivity|].
  destruct (p x); simpl; [destruct (q x); rewrite IH; reflexivity | exact IH].
Qed.

Lemma filter_true {A} (l : list A) : List.filter (fun _ => true) l = l.
Proof. induction l as [|x l IH]; simpl; [|rewrite IH]; reflexivity. Qed.

Lemma applyFilters_passes (words : list WordEntry) (fs : Filters) :
  applyFilters words fs = List.filter (passes fs) words.
Proof.
  unfold applyFilters, passes.
  destruct (1 <? f_minLength fs); destruct (excludeCommon fs);
    destruct (0 <? length (f_articles fs));
    cbn [andb]; rewrite ?filter_filter_and;
    first [ symmetry; apply filter_true
          | apply List.filter_ext; intros w;
            rewrite ?andb_true_r, ?andb_assoc; reflexivity ].
Qed.

Lemma existsb_unknown_scope (w : WordEntry) (scopes : list jsstring) (scope : jsstring) :
  In scope scopes -> knownScope scope = false ->
  existsb (articleFilter w) scopes = true.
Proof.
  intros Hin Hunknown. apply List.existsb_exists. exists scope.
  split; [exact Hin|]. unfold knownScope in Hunknown. unfold articleFilter.
  apply orb_false_iff in Hunknown as [Hunknown Hb].
  apply orb_false_iff in Hunknown as [Hr Hp].
  rewrite Hr, Hp, Hb. reflexivity.
Qed.

(** X17: filtering keeps a sub-list of the entries in their order, and
    filtering twice is filtering once; a scope name other than recent,
    popular and bookmarked among the article scopes switches the scope
    filter off, whatever the other scopes are. *)
Theorem applyFilters_selects (words : list WordEntry) (fs : Filters) :
  sublist (applyFilters words fs) words
  /\ applyFilters (applyFilters words fs) fs = applyFilters words fs
  /\ (forall scope,
        In scope (f_articles fs) -> knownScope scope = false ->
        applyFilters words fs
        = applyFilters words
            (mkFilters (f_minLength fs) (excludeCommon fs) (partOfSpeech fs) [])).
Proof.
  split; [|split].
  - rewrite applyFilters_passes. apply filter_is_sublist.
  - rewrite !applyFilters_passes. apply filter_all, filter_Forall.
  - intros scope Hin Hunknown. rewrite !applyFilters_passes.
    apply List.filter_ext. intros w. unfold passes. simpl.
    rewrite (existsb_unknown_scope w _ scope Hin Hunknown).
    destruct (0 <? length (f_articles fs)); reflexivity.
Qed.

Lemma applyFilters_selects_witness :
  applyFilters (fst (processArticles ∅ scenarioA))
    (mkFilters 4 true [] [lit "popular"; lit "latest"])
  = applyFilters (fst (processArticles ∅ scenarioA)) (mkFilters 4 true [] []).
Proof.
  destruct (applyFilters_selects (fst (processArticles ∅ scenarioA))
              (mkFilters 4 true [] [lit "popular"; lit "latest"])) as (_ & _ & H).
  apply (H "latest"); [simpl; tauto | reflexivity].
Defined.

(** *** Matching *)

Lemma findWordMatches_sublist term words mode ms :
  findWordMatches term words mode = Done ms -> sublist ms words.
Proof.
  unfold findWordMatches. destruct (charIn term "*"%char).
  - destruct (newRegExp (expandWildcards term)) as [regex|msg| |]; simpl;
      intros H; inversion H; subst. apply filter_is_sublist.
  - destruct mode; intros H; inversion H; subst; apply filter_is_sublist.
Qed.

Lemma filter_key_NoDup {A} (key : A -> jsstring) (k : jsstring) (l : list A) :
  List.NoDup (List.map key l) ->
  length (List.filter (fun x => streq (key x) k) l) <= 1.
Proof.
  induction l as [|x l IH]; simpl; [lia|].
  intros Hnd. inversion Hnd as [|? ? Hx Hl]; subst. specialize (IH Hl).
  destruct (streq (key x) k) eqn:E; [|exact IH].
  apply streq_true in E. simpl.
  destruct (List.filter (fun y => streq (key y) k) l) as [|y r] eqn:Ef; [simpl; lia|].
  exfalso. apply Hx.
  assert (Hy : In y (List.filter (fun y => streq (key y) k) l))
    by (rewrite Ef; left; reflexivity).
  apply List.filter_In in Hy as [Hy Hk]. apply streq_true in Hk.
  apply List.in_map_iff. exists y. split; [congruence | exact Hy].
Qed.

Lemma stars_match_nothing n : Matches (List.repeat (NStar AAny) n) [].
Proof.
  induction n as [|n IH]; simpl; [constructor|].
  apply (Matches_star AAny [] _ []); [constructor | exact IH].
Qed.

Lemma termNode_stars n :
  List.map termNode (List.repeat "*"%char n) = List.repeat (NStar AAny) n.
Proof. induction n as [|n IH]; simpl; [|rewrite IH]; reflexivity. Qed.

Lemma stars_plain n : forallb plainChar (List.repeat "*"%char n) = true.
Proof. induction n as [|n IH]; simpl; [reflexivity | exact IH]. Qed.

(** X18: what a term can match.  The matches of a term are a sub-list of
    the words searched; when no word has two entries, exact mode finds at
    most one entry for a term without wildcard; and a term made of
    wildcards only matches every entry in either mode. *)
Theorem findWordMatches_bounds (term : jsstring) (words : list WordEntry) (mode : Mode) :
  (forall ms, findWordMatches term words mode = Done ms -> sublist ms words)
  /\ (charIn term "*"%char = false -> List.NoDup (List.map word words) ->
      exists ms, findWordMatches term words Exact = Done ms /\ length ms <= 1)
  /\ (forall n, term = List.repeat "*"%char (S n) ->
      findWordMatches term words mode = Done words).
Proof.
  split; [intros ms; apply findWordMatches_sublist|]. split.
  - intros Hstar Hnd. unfold findWordMatches. rewrite Hstar.
    eexists. split; [reflexivity|]. apply filter_key_NoDup, Hnd.
  - intros n ->. rewrite findWordMatches_wildcard; [|reflexivity|apply stars_plain].
    f_equal. apply filter_all, List.Forall_forall. intros w _.
    apply test_iff; [apply termNodes_consuming|].
    exists [], [], (word w). split; [reflexivity|].
    rewrite termNode_stars. apply stars_match_nothing.
Qed.

Lemma findWordMatches_bounds_witness :
  exists ms, findWordMatches "Dog" (fst (processArticles ∅ scenarioA)) Exact = Done ms
             /\ length ms <= 1.
Proof.
  apply (findWordMatches_bounds "Dog" (fst (processArticles ∅ scenarioA)) Exact).
  - reflexivity.
  - vm_compute. repeat constructor; simpl; intuition discriminate.
Defined.

End MoreServiceFacts.

(** ** Queries and results *)

Section SearchFacts.
Import Js Service.

Lemma phrases_shape (s : jsstring) :
  forall inside p,
    In p (phrases inside s) ->
    match inside with Some acc => Forall noQuote acc | None => True end ->
    p <> [] /\ Forall noQuote p
    /\ (quotedIn s p
        \/ exists acc x b post,
             inside = Some acc /\ p = rev acc ++ x /\ s = x ++ b :: post
             /\ isDoubleQuote b = true).
Proof.
  induction s as [|c r IH]; intros inside p Hin Hacc; [destruct Hin|].
  simpl in Hin. destruct inside as [acc|].
  - destruct (isDoubleQuote c) eqn:Ec.
    + destruct acc as [|d acc'].
      * destruct (IH (Some []) p Hin ltac:(constructor)) as (H1 & H2 & H3).
        split; [exact H1|]. split; [exact H2|]. left.
        destruct H3 as [(pre & a & b & post & -> & Ha & Hb)
                       |(acc & x & b & post & Hi & -> & -> & Hb)].
        -- exists (c :: pre), a, b, post. auto.
        -- inversion Hi; subst. exists [], c, b, post. auto.
      * destruct Hin as [ <- | Hin ].
        -- split; [intros H; apply (f_equal (@length ascii)) in H;
                   rewrite length_rev in H; discriminate|].
           split; [apply List.Forall_rev, Hacc|]. right.
           exists (d :: acc'), [], c, r. rewrite app_nil_r. auto.
        -- destruct (IH None p Hin I) as (H1 & H2 & H3).
           split; [exact H1|]. split; [exact H2|]. left.
           destruct H3 as [(pre & a & b & post & -> & Ha & Hb)
                          |(acc & x & b & post & Hi & _)]; [|discriminate].
           exists (c :: pre), a, b, post. auto.
    + assert (Hacc' : Forall noQuote (c :: acc)) by (constructor; assumption).
      destruct (IH (Some (c :: acc)) p Hin Hacc') as (H1 & H2 & H3).
      split; [exact H1|]. split; [exact H2|].
      destruct H3 as [(pre & a & b & post & -> & Ha & Hb)
                     |(acc0 & x & b & post & Hi & -> & -> & Hb)].
      * left. exists (c :: pre), a, b, post. auto.
      * inversion Hi; subst. right. exists acc, (c :: x), b, post.
        simpl. rewrite <- app_assoc. auto.
  - destruct (isDoubleQuote c) eqn:Ec.
    + destruct (IH (Some []) p Hin ltac:(constructor)) as (H1 & H2 & H3).
      split; [exact H1|]. split; [exact H2|]. left.
      destruct H3 as [(pre & a & b & post & -> & Ha & Hb)
                     |(acc & x & b & post & Hi & -> & -> & Hb)].
      * exists (c :: pre), a, b, post. auto.
      * inversion Hi; subst. exists [], c, b, post. auto.
    + destruct (IH None p Hin I) as (H1 & H2 & H3).
      split; [exact H1|]. split; [exact H2|]. left.
      destruct H3 as [(pre & a & b & post & -> & Ha & Hb)
                     |(acc & x & b & post & Hi & _)]; [|discriminate].
      exists (c :: pre), a, b, post. auto.
Qed.

Lemma splitRunsFrom_pieces sep inRun acc s :
  Forall (fun c => sep c = false) acc ->
  Forall (Forall (fun c => sep c = false)) (splitRunsFrom sep inRun acc s).
Proof.
  revert inRun acc. induction s as [|c s IH]; intros inRun acc Hacc; simpl.
  - constructor; [apply List.Forall_rev, Hacc | constructor].
  - destruct (sep c) eqn:E.
    + destruct inRun; [apply IH, Hacc|].
      constructor; [apply List.Forall_rev, Hacc | apply IH; constructor].
    + apply IH. constructor; assumption.
Qed.

Lemma charIn_nonempty (s : jsstring) (c : ascii) : charIn s c = true -> s <> [].
Proof. destruct s; [discriminate | discriminate]. Qed.

(** X19: the terms of a query.  A quoted phrase is a non-empty segment of
    the query between two double quotes and holds no double quote; when
    the query has one, the terms are the phrases, and the mode and the
    wildcard are ignored.  No term of exact mode is empty.  Without phrase
    and wildcard the exact terms hold no white space, and intelligent mode
    returns twice as many terms. *)
Theorem parseSearchQuery_terms (q : jsstring) :
  (forall p, In p (phrases None q) -> p <> [] /\ Forall noQuote p /\ quotedIn q p)
  /\ (phrases None q <> [] ->
      forall m, parseSearchQuery q m = phrases None q)
  /\ (forall t, In t (parseSearchQuery q Exact) -> t <> [])
  /\ (phrases None q = [] -> charIn q "*"%char = false ->
      Forall (Forall (fun c => isSpace c = false)) (parseSearchQuery q Exact)
      /\ length (parseSearchQuery q Intelligent)
         = 2 * length (parseSearchQuery q Exact)).
Proof.
  assert (Hphr : forall p, In p (phrases None q) ->
                   p <> [] /\ Forall noQuote p /\ quotedIn q p).
  { intros p Hp. destruct (phrases_shape q None p Hp I) as (H1 & H2 & H3).
    split; [exact H1|]. split; [exact H2|].
    destruct H3 as [H3|(acc & x & b & post & Hi & _)]; [exact H3 | discriminate]. }
  split; [exact Hphr|]. split; [|split].
  - intros Hne m. unfold parseSearchQuery.
    destruct (phrases None q); [congruence | reflexivity].
  - intros t Ht. unfold parseSearchQuery in Ht.
    destruct (phrases None q) as [|p ps] eqn:Ep.
    + destruct (charIn q "*"%char) eqn:Es.
      * destruct Ht as [ <- | [] ]. eapply charIn_nonempty, Es.
      * apply List.filter_In in Ht as [_ Ht]. unfold TextAnalyzer.nonEmpty in Ht.
        intros ->. rewrite streq_refl in Ht. discriminate.
    + apply (Hphr t Ht).
  - intros Ep Es. unfold parseSearchQuery. rewrite Ep, Es. split.
    + apply List.Forall_forall. intros t Ht. apply List.filter_In in Ht as [Ht _].
      pose proof (splitRunsFrom_pieces isSpace false [] q ltac:(constructor)) as H.
      rewrite List.Forall_forall in H. exact (H t Ht).
    + induction (List.filter TextAnalyzer.nonEmpty (splitRuns isSpace q))
        as [|t ts IH]; simpl; [reflexivity|].
      simpl in IH. rewrite IH. lia.
Qed.

Lemma parseSearchQuery_terms_witness :
  Forall (Forall (fun c => isSpace c = false))
         (parseSearchQuery " lazy  dogs " Exact)
  /\ length (parseSearchQuery " lazy  dogs " Intelligent)
     = 2 * length (parseSearchQuery " lazy  dogs " Exact).
Proof.
  apply (parseSearchQuery_terms " lazy  dogs "); reflexivity.
Defined.

(** *** Results *)

Lemma extractContexts_length content w cs :
  extractContexts content w = Done cs -> length cs <= 3.
Proof.
  unfold extractContexts.
  destruct (newRegExp (lit "\b" ++ w ++ lit "\b")) as [regex|msg| |]; simpl;
    intros H; inversion H; subst.
  rewrite length_take. lia.
Qed.

Lemma fold_setAdd_NoDup (xs ids : list jsstring) :
  List.NoDup ids -> List.NoDup (List.fold_left setAdd xs ids).
Proof.
  revert ids. induction xs as [|x xs IH]; intros ids Hnd; simpl; [exact Hnd|].
  apply IH, setAdd_NoDup, Hnd.
Qed.

Lemma collectArticleIds_NoDup (matches : list WordEntry) :
  List.NoDup (collectArticleIds matches).
Proof.
  unfold collectArticleIds.
  assert (H : forall ids, List.NoDup ids ->
            List.NoDup (List.fold_left
                          (fun ids m => List.fold_left setAdd (articles m) ids)
                          matches ids)).
  { induction matches as [|m ms IH]; intros ids Hnd; simpl; [exact Hnd|].
    apply IH, fold_setAdd_NoDup, Hnd. }
  apply H. constructor.
Qed.

Lemma articleMatchesFor_shape corpus term matches ids :
  forall ams,
    articleMatchesFor corpus term matches ids = Done ams ->
    sublist (List.map am_articleId ams) ids
    /\ Forall (fun am =>
                 length (am_contexts am) <= 3
                 /\ exists a, In a corpus /\ id a = am_articleId am
                              /\ title a = am_title am) ams.
Proof.
  induction ids as [|articleId rest IH]; intros ams H; simpl in H.
  - inversion H; subst. split; constructor.
  - destruct (List.find (fun a => streq (id a) articleId) corpus) as [article|] eqn:Ef.
    + destruct (extractContexts (content article) term) as [cs|msg| |] eqn:Ec;
        simpl in H; try discriminate.
      destruct (articleMatchesFor corpus term matches rest) as [more|msg| |];
        simpl in H; try discriminate.
      inversion H; subst. destruct (IH more eq_refl) as [Hsub Hall].
      split; [simpl; constructor; exact Hsub|].
      constructor; [|exact Hall]. simpl.
      split; [exact (extractContexts_length _ _ _ Ec)|].
      apply List.find_some in Ef as [Hin Hid]. apply streq_true in Hid.
      exists article. auto.
    + destruct (IH ams H) as [Hsub Hall]. split; [|exact Hall].
      constructor. exact Hsub.
Qed.

Lemma buildSearchResult_shape corpus term matches r :
  buildSearchResult corpus term matches = Done r ->
  sr_word r = term
  /\ sr_frequency r = sumFrequency matches
  /\ resultOk corpus [term] r.
Proof.
  unfold buildSearchResult.
  destruct (articleMatchesFor corpus term matches (collectArticleIds matches))
    as [ams|msg| |] eqn:Ea; simpl; intros H; inversion H; subst.
  destruct (articleMatchesFor_shape _ _ _ _ _ Ea) as [Hsub Hall].
  split; [reflexivity|]. split; [reflexivity|].
  unfold resultOk. simpl. split; [tauto|].
  split; [rewrite length_take; lia|].
  split; [|exact Hall].
  apply NoDup_ListNoDup.
  eapply sublist_NoDup; [apply NoDup_ListNoDup, collectArticleIds_NoDup | exact Hsub].
Qed.

Lemma resultOk_more corpus terms terms' r :
  (forall t, In t terms -> In t terms') ->
  resultOk corpus terms r -> resultOk corpus terms' r.
Proof. unfold resultOk. intros Hsub (H1 & H2). split; auto. Qed.

Lemma searchTerms_shape corpus allWords m fs terms :
  forall rs,
    searchTerms corpus allWords m fs terms = Done rs ->
    Forall (resultOk corpus terms) rs
    /\ sublist (List.map sr_word rs) terms
    /\ Forall (fun r => exists matches,
                 (forall ms, findWordMatches (sr_word r) allWords m = Done ms ->
                             matches = applyFilters ms fs)
                 /\ matches <> []
                 /\ sr_frequency r = sumFrequency matches) rs.
Proof.
  induction terms as [|term rest IH]; intros rs H; simpl in H.
  - inversion H; subst. repeat split; constructor.
  - destruct (findWordMatches term allWords m) as [matches|msg| |] eqn:Em;
      simpl in H; try discriminate.
    destruct (0 <? length (applyFilters matches fs)) eqn:El.
    + destruct (buildSearchResult corpus term (applyFilters matches fs))
        as [r|msg| |] eqn:Eb; simpl in H; try discriminate.
      destruct (searchTerms corpus allWords m fs rest) as [more|msg| |];
        simpl in H; try discriminate.
      inversion H; subst. destruct (IH more eq_refl) as (H1 & H2 & H3).
      destruct (buildSearchResult_shape _ _ _ _ Eb) as (Hw & Hf & Hok).
      split; [|split].
      * constructor.
        -- eapply resultOk_more; [|exact Hok]. intros t [ <- | [] ]. left. reflexivity.
        -- eapply List.Forall_impl; [|exact H1]. intros r'.
           apply resultOk_more. intros t Ht. right. exact Ht.
      * simpl. rewrite Hw. constructor. exact H2.
      * constructor; [|exact H3]. exists (applyFilters matches fs).
        rewrite Hw. split; [|split; [|exact Hf]].
        -- intros ms Hms. rewrite Em in Hms. inversion Hms. reflexivity.
        -- intros Hnil. rewrite Hnil in El. discriminate.
    + destruct (IH rs H) as (H1 & H2 & H3). split; [|split; [|exact H3]].
      * eapply List.Forall_impl; [|exact H1]. intros r'.
        apply resultOk_more. intros t Ht. right. exact Ht.
      * constructor. exact H2.
Qed.

(** X20: the results of a successful search come in descending order of
    frequency, at most one per term of the query.  Each one is for a term
    of the query, carries at most ten contexts, and lists each article
    once, with at most three contexts and with the id and title of an
    article of the corpus. *)
Theorem search_results_shape (corpus : list Article) (st : State)
        (reply : WorkerReply) (options : SearchOptions) (rs : list SearchResult) :
  fst (searchWords corpus st reply options) = Done rs ->
  descending sr_frequency rs
  /\ length rs <= length (parseSearchQuery (query options) (mode options))
  /\ Forall (resultOk corpus (parseSearchQuery (query options) (mode options))) rs.
Proof.
  unfold searchWords.
  destruct (streq (trim (query options)) []); [discriminate|].
  destruct (analyzeAllArticles corpus st reply) as [analyzed st'].
  destruct analyzed as [allWords|msg| |]; simpl; try discriminate.
  destruct (searchTerms corpus allWords (mode options) (filters options)
              (parseSearchQuery (query options) (mode options)))
    as [results|msg| |] eqn:Es; simpl; try discriminate.
  intros H. inversion H; subst.
  destruct (searchTerms_shape _ _ _ _ _ _ Es) as (H1 & H2 & _).
  split; [apply sortDesc_descending|]. split.
  - rewrite (Permutation_length (sortDesc_perm sr_frequency results)).
    apply sublist_length in H2. rewrite length_map in H2. exact H2.
  - apply List.Forall_forall. intros r Hr. apply sortDesc_In in Hr.
    rewrite List.Forall_forall in H1. exact (H1 r Hr).
Qed.

Lemma search_results_shape_witness :
  exists rs,
    fst (searchWords scenarioA (mkState ∅ false ∅) WorkerTimeout
           (mkSearchOptions "dog fox" Exact (mkFilters 0 false [] []))) = Done rs
    /\ descending sr_frequency rs
    /\ length rs <= 2.
Proof.
  assert (H : exists rs,
            fst (searchWords scenarioA (mkState ∅ false ∅) WorkerTimeout
                   (mkSearchOptions "dog fox" Exact (mkFilters 0 false [] [])))
            = Done rs)
    by (eexists; vm_compute; reflexivity).
  destruct H as [rs Hrs]. exists rs. split; [exact Hrs|].
  destruct (search_results_shape scenarioA (mkState ∅ false ∅) WorkerTimeout
              (mkSearchOptions "dog fox" Exact (mkFilters 0 false [] [])) rs Hrs)
    as (H1 & H2 & _).
  split; [exact H1 | exact H2].
Defined.

End SearchFacts.

(** ** The store *)

Section StoreFacts.
Import Js Store.

Lemma editDistance_nil_r s : editDistance s [] = length s.
Proof. destruct s; reflexivity. Qed.

Lemma editDistance_cons a s b t :
  editDistance (a :: s) (b :: t)
  = if Ascii.eqb a b then editDistance s t
    else S (min3 (editDistance s t) (editDistance (a :: s) t) (editDistance s (b :: t))).
Proof. reflexivity. Qed.

Lemma fillRow_cells c2 r2 rest :
  forall a1,
    fillRow c2 rest (editDistance r2 a1) (editDistance (c2 :: r2) a1) (cells r2 a1 rest)
    = cells (c2 :: r2) a1 rest.
Proof.
  induction rest as [|c1 rest IH]; intros a1; [reflexivity|].
  cbn [fillRow cells]. rewrite (editDistance_cons c2 r2 c1 a1).
  assert (Hcell :
    (if Ascii.eqb c2 c1 then editDistance r2 a1
     else min3 (editDistance r2 a1 + 1) (editDistance (c2 :: r2) a1 + 1)
               (editDistance r2 (c1 :: a1) + 1))
    = (if Ascii.eqb c2 c1 then editDistance r2 a1
       else S (min3 (editDistance r2 a1) (editDistance (c2 :: r2) a1)
                    (editDistance r2 (c1 :: a1))))).
  { destruct (Ascii.eqb c2 c1); [reflexivity|]. unfold min3. lia. }
  rewrite Hcell. f_equal.
  rewrite <- (editDistance_cons c2 r2 c1 a1). apply IH.
Qed.

Lemma cells_first_row a1 rest :
  cells [] a1 rest = seq (S (length a1)) (length rest).
Proof.
  revert a1. induction rest as [|c rest IH]; intros a1; [reflexivity|].
  cbn [cells]. rewrite IH. reflexivity.
Qed.

Lemma nextRow_cells str1 r2 c2 :
  nextRow str1 (editDistance r2 [] :: cells r2 [] str1) (S (length r2)) c2
  = editDistance (c2 :: r2) [] :: cells (c2 :: r2) [] str1.
Proof.
  unfold nextRow. f_equal.
  rewrite <- (fillRow_cells c2 r2 str1 []). reflexivity.
Qed.

Lemma lastRow_cells str1 str2 :
  forall r2,
    lastRow str1 (editDistance r2 [] :: cells r2 [] str1) (length r2) str2
    = editDistance (rev str2 ++ r2) [] :: cells (rev str2 ++ r2) [] str1.
Proof.
  induction str2 as [|c2 str2 IH]; intros r2; [reflexivity|].
  cbn [lastRow]. rewrite nextRow_cells.
  change (S (length r2)) with (length (c2 :: r2)). rewrite IH.
  simpl rev. rewrite <- app_assoc. reflexivity.
Qed.

Lemma last_cells r2 rest :
  forall a1,
    List.last (editDistance r2 a1 :: cells r2 a1 rest) 0
    = editDistance r2 (rev rest ++ a1).
Proof.
  induction rest as [|c rest IH]; intros a1; [reflexivity|].
  cbn [cells]. simpl rev. rewrite <- app_assoc. simpl app.
  rewrite <- IH. reflexivity.
Qed.

(** The matrix computes the distance by the recurrence, from the last
    characters of the two strings. *)
Lemma levenshteinDistance_editDistance str1 str2 :
  levenshteinDistance str1 str2 = editDistance (rev str2) (rev str1).
Proof.
  unfold levenshteinDistance.
  assert (Hrow0 : seq 0 (S (length str1))
                  = editDistance [] [] :: cells [] [] str1).
  { rewrite cells_first_row. reflexivity. }
  pose proof (lastRow_cells str1 str2 []) as Hlast. cbn [length] in Hlast.
  rewrite Hrow0, Hlast.
  rewrite last_cells, !app_nil_r. reflexivity.
Qed.

Lemma editDistance_refl s : editDistance s s = 0.
Proof.
  induction s as [|a s IH]; [reflexivity|].
  rewrite editDistance_cons, Ascii.eqb_refl. exact IH.
Qed.

Lemma editDistance_sym s : forall t, editDistance s t = editDistance t s.
Proof.
  induction s as [|a s IHs]; intros t.
  - rewrite editDistance_nil_r. reflexivity.
  - induction t as [|b t IHt]; [reflexivity|].
    rewrite !editDistance_cons. rewrite (Ascii.eqb_sym b a).
    rewrite IHt, (IHs t), (IHs (b :: t)).
    destruct (Ascii.eqb a b); [reflexivity|]. unfold min3. lia.
Qed.

Lemma editDistance_bounds s :
  forall t,
    editDistance s t <= Nat.max (length s) (length t)
    /\ length s <= length t + editDistance s t
    /\ length t <= length s + editDistance s t.
Proof.
  induction s as [|a s IHs]; intros t.
  - simpl. lia.
  - induction t as [|b t IHt]; [simpl; lia|].
    rewrite editDistance_cons.
    pose proof (IHs t) as H1. pose proof (IHs (b :: t)) as H2.
    destruct (Ascii.eqb a b); simpl length in *; unfold min3; lia.
Qed.

Lemma editDistance_zero s : forall t, editDistance s t = 0 -> s = t.
Proof.
  induction s as [|a s IHs]; intros t.
  - simpl. destruct t; [reflexivity | discriminate].
  - destruct t as [|b t]; [discriminate|].
    rewrite editDistance_cons. destruct (Ascii.eqb_spec a b); [|discriminate].
    intros H. subst b. f_equal. apply IHs, H.
Qed.

(** X21: the distance of [levenshteinDistance] is 0 for equal strings and
    for no others, does not depend on the order of its arguments, is at
    least the difference of the two lengths and at most the greater of
    them; against the empty string it is the length of the other. *)
Theorem levenshteinDistance_is_a_distance (str1 str2 : jsstring) :
  (levenshteinDistance str1 str2 = 0 <-> str1 = str2)
  /\ levenshteinDistance str1 str2 = levenshteinDistance str2 str1
  /\ levenshteinDistance str1 str2 <= Nat.max (length str1) (length str2)
  /\ length str1 <= length str2 + levenshteinDistance str1 str2
  /\ length str2 <= length str1 + levenshteinDistance str1 str2
  /\ levenshteinDistance str1 [] = length str1.
Proof.
  rewrite !levenshteinDistance_editDistance.
  destruct (editDistance_bounds (rev str2) (rev str1)) as (H1 & H2 & H3).
  rewrite !length_rev in *.
  split; [|split; [apply editDistance_sym|]].
  - split.
    + intros H. apply editDistance_zero in H.
      apply (f_equal (@rev ascii)) in H. rewrite !rev_involutive in H. auto.
    + intros ->. apply editDistance_refl.
  - repeat split; try lia.
    simpl. apply length_rev.
Qed.

(** *** The search history *)

Lemma sameMode_refl m : sameMode m m = true.
Proof. destruct m; reflexivity. Qed.

Lemma sameMode_sym a b : sameMode a b = sameMode b a.
Proof. destruct a, b; reflexivity. Qed.

Lemma streq_sym a b : streq a b = streq b a.
Proof.
  destruct (streq a b) eqn:E.
  - apply streq_true in E. subst. symmetry. apply streq_refl.
  - destruct (streq b a) eqn:E'; [|reflexivity].
    apply streq_true in E'. subst. rewrite streq_refl in E. discriminate.
Qed.

Lemma sameSearch_refl o : sameSearch o o = true.
Proof. unfold sameSearch. rewrite streq_refl, sameMode_refl. reflexivity. Qed.

Lemma sameSearch_sym a b : sameSearch a b = sameSearch b a.
Proof. unfold sameSearch. rewrite streq_sym, sameMode_sym. reflexivity. Qed.

Lemma StronglySorted_sub {A} (R : A -> A -> Prop) (l1 l2 : list A) :
  sublist l1 l2 -> StronglySorted R l2 -> StronglySorted R l1.
Proof.
  intros Hsub. induction Hsub as [|x l1 l2 Hsub IH|x l1 l2 Hsub IH]; intros Hs.
  - constructor.
  - inversion Hs as [|? ? Hl Hx]; subst. constructor; [apply IH, Hl|].
    apply List.Forall_forall. intros y Hy. rewrite List.Forall_forall in Hx.
    apply Hx. apply list_elem_of_In. eapply sublist_subseteq; [exact Hsub|].
    apply list_elem_of_In, Hy.
  - inversion Hs; subst. apply IH. assumption.
Qed.

(** X22: after [addToSearchHistory] the history starts with the new search,
    holds at most 20 searches and no other search with the same query and
    mode; what follows the new search is a sub-list of the old history.  A
    history without repeated searches stays so, and adding the same search
    again changes nothing. *)
Theorem addToSearchHistory_keeps_recent (history : list Service.SearchOptions)
        (options : Service.SearchOptions) :
  head (addToSearchHistory history options) = Some options
  /\ length (addToSearchHistory history options) <= 20
  /\ Forall (fun item => sameSearch item options = false)
            (tail (addToSearchHistory history options))
  /\ sublist (tail (addToSearchHistory history options)) history
  /\ (distinctSearches history ->
      distinctSearches (addToSearchHistory history options))
  /\ addToSearchHistory (addToSearchHistory history options) options
     = addToSearchHistory history options.
Proof.
  unfold addToSearchHistory.
  set (p := fun item : Service.SearchOptions => negb (sameSearch item options)).
  change (take 20 (options :: List.filter p history))
    with (options :: take 19 (List.filter p history)).
  assert (Hall : Forall (fun item => p item = true) (take 19 (List.filter p history))).
  { apply Forall_take, filter_Forall. }
  split; [reflexivity|]. split; [simpl; rewrite length_take; lia|].
  split; [|split; [|split]].
  - simpl. eapply List.Forall_impl; [|exact Hall].
    intros item H. subst p. simpl in H. apply negb_true_iff in H. exact H.
  - simpl. transitivity (List.filter p history);
      [apply sublist_take | apply filter_is_sublist].
  - intros Hd. constructor.
    + eapply StronglySorted_sub; [|exact Hd].
      transitivity (List.filter p history);
        [apply sublist_take | apply filter_is_sublist].
    + eapply List.Forall_impl; [|exact Hall].
      intros item H. subst p. simpl in H. apply negb_true_iff in H.
      rewrite sameSearch_sym. exact H.
  - cbn [List.filter]. unfold p at 1. rewrite sameSearch_refl. cbn [negb].
    rewrite (filter_all p _ Hall).
    change (take 20 (options :: take 19 (List.filter p history)))
      with (options :: take 19 (take 19 (List.filter p history))).
    rewrite take_take. f_equal.
Qed.

Lemma addToSearchHistory_keeps_recent_witness :
  distinctSearches
    (addToSearchHistory
       [ Service.mkSearchOptions "dog" Service.Exact (Service.mkFilters 0 false [] []) ]
       (Service.mkSearchOptions "dog" Service.Exact (Service.mkFilters 3 true [] []))).
Proof.
  apply (addToSearchHistory_keeps_recent
           [ Service.mkSearchOptions "dog" Service.Exact (Service.mkFilters 0 false [] []) ]).
  repeat constructor.
Defined.

(** *** The distribution *)

Lemma distribution_step (w : WordEntry) (ws : list WordEntry) :
  sum_list (List.map snd (getFrequencyDistribution (w :: ws)))
  = (if 1 <=? frequency w then 1 else 0)
    + sum_list (List.map snd (getFrequencyDistribution ws)).
Proof.
  unfold getFrequencyDistribution, ranges, inRangeOf.
  cbn [List.map List.filter snd sum_list sum_list_with r_min r_max].
  unfold Datatypes.id.
  repeat match goal with
         | |- context [?a <=? frequency w] =>
             destruct (Nat.leb_spec a (frequency w)); cbn [andb length]; try lia
         | |- context [frequency w <=? ?b] =>
             destruct (Nat.leb_spec (frequency w) b); cbn [andb length]; try lia
         end.
Qed.

(** X23: the buckets of [getFrequencyDistribution] do not overlap and cover
    every frequency from 1 on: when every entry has a frequency of at
    least 1, as the entries of an aggregation have, the counts add up to
    the number of entries.  The count of a bounded bucket is the length of
    [getWordsByFrequencyRange] for its bounds. *)
Theorem getFrequencyDistribution_partitions (allWords : list WordEntry) :
  sum_list (List.map snd (getFrequencyDistribution allWords))
  = length (List.filter (fun w => 1 <=? frequency w) allWords)
  /\ (Forall (fun w => 1 <= frequency w) allWords ->
      sum_list (List.map snd (getFrequencyDistribution allWords)) = length allWords)
  /\ (forall range max,
        In range ranges -> r_max range = Some max ->
        In (r_label range,
            length (getWordsByFrequencyRange allWords (r_min range) max))
           (getFrequencyDistribution allWords)).
Proof.
  assert (Hsum : sum_list (List.map snd (getFrequencyDistribution allWords))
                 = length (List.filter (fun w => 1 <=? frequency w) allWords)).
  { induction allWords as [|w ws IH]; [reflexivity|].
    rewrite distribution_step, IH. cbn [List.filter].
    destruct (1 <=? frequency w); reflexivity. }
  split; [exact Hsum|]. split.
  - intros Hall. rewrite Hsum. f_equal. apply filter_all.
    eapply List.Forall_impl; [|exact Hall]. intros w Hw. apply Nat.leb_le, Hw.
  - intros range max Hin Hmax. unfold getFrequencyDistribution.
    apply List.in_map_iff. exists range. split; [|exact Hin].
    f_equal. unfold getWordsByFrequencyRange. f_equal.
    apply List.filter_ext. intros w. unfold inRangeOf. rewrite Hmax. reflexivity.
Qed.

Lemma getFrequencyDistribution_partitions_witness :
  sum_list (List.map snd
              (getFrequencyDistribution (fst (Service.processArticles ∅ scenarioA))))
  = length (fst (Service.processArticles ∅ scenarioA)).
Proof.
  apply (getFrequencyDistribution_partitions (fst (Service.processArticles ∅ scenarioA))).
  vm_compute. repeat constructor.
Defined.

End StoreFacts.

Section StoreStateFacts.
Import Js Store.
Context {WordAnalysis Date : Type}.
Implicit Types st : Store.State WordAnalysis Date.

(** X24: refreshing does not analyze again.  After a first successful
    [initialize], clearing the cache of the store and initializing again
    gives the store the same words, whatever the worker would answer, and
    leaves the service as it is: the service keeps its own cache, which
    [clearCache] of the store does not reach. *)
Theorem refresh_keeps_first_analysis (corpus : list Article) st st1
        (service service1 : Service.State) (reply reply' : Service.WorkerReply)
        (now now' : Date) :
  isInitialized st = false ->
  initialize corpus st service reply now = (Done tt, st1, service1) ->
  exists st2,
    initialize corpus (clearCache st1) service1 reply' now' = (Done tt, st2, service1)
    /\ allWords st2 = allWords st1
    /\ isInitialized st2 = true
    /\ wordAnalysisCache st2 = ∅
    /\ lastRefreshed st2 = Some now'.
Proof.
  intros Hinit. unfold initialize at 1. rewrite Hinit.
  destruct (Service.analyzeAllArticles corpus service reply)
    as [[ws|msg| |] service'] eqn:Ea; intros H; inversion H; subst.
  unfold initialize. cbn [clearCache isInitialized].
  rewrite (analyzeAllArticles_again corpus service service1 reply reply' ws Ea).
  eexists. split; [reflexivity|]. cbn. auto.
Qed.

(** X25: how the store is left by [searchWords].  The search is marked as
    made in every case.  After success the store is initialized, shows no
    error, is no longer searching, and the search is the current one and
    the first of the history.  After a failure the message is the error of
    the store, the results are empty, and the history and the current
    search are untouched.  A call that never settles leaves the store
    searching. *)
Theorem store_search_settles (corpus : list Article) st st'
        (service service' : Service.State) (reply : Service.WorkerReply)
        (now : Date) (options : Service.SearchOptions) (o : outcome unit) :
  searchWords corpus st service reply now options = (o, st', service') ->
  hasSearched st' = true
  /\ (o = Done tt ->
      isSearching st' = false /\ isInitialized st' = true /\ error st' = None
      /\ currentSearch st' = Some options
      /\ head (searchHistory st') = Some options)
  /\ (forall msg, o = Thrown msg ->
      isSearching st' = false /\ error st' = Some msg /\ results st' = []
      /\ searchHistory st' = searchHistory st
      /\ currentSearch st' = currentSearch st)
  /\ (o = Pending -> isSearching st' = true /\ results st' = results st).
Proof.
  unfold searchWords. cbn [isInitialized].
  destruct (isInitialized st) eqn:Hinit.
  - destruct (Service.searchWords corpus service reply options)
      as [[rs|msg| |] service2]; intros H; inversion H; subst; cbn;
      repeat split; try discriminate; try congruence; auto.
  - unfold initialize. cbn [isInitialized].
    destruct (Service.analyzeAllArticles corpus service reply)
      as [[ws|msg| |] service1].
    + destruct (Service.searchWords corpus service1 reply options)
        as [[rs|msg| |] service2]; intros H; inversion H; subst; cbn;
        repeat split; try discriminate; try congruence; auto.
    + intros H; inversion H; subst; cbn;
        repeat split; try discriminate; try congruence; auto.
    + intros H; inversion H; subst; cbn;
        repeat split; try discriminate; try congruence; auto.
    + intros H; inversion H; subst; cbn;
        repeat split; try discriminate; try congruence; auto.
Qed.

End StoreStateFacts.

Section StoreScenarios.
Import Js Store.

Lemma refresh_keeps_first_analysis_witness :
  exists st2 : Store.State unit nat,
    initialize scenarioA
      (clearCache
         (snd (fst (initialize scenarioA initialState
                      (Service.mkState ∅ false ∅) Service.WorkerTimeout 1))))
      (snd (initialize scenarioA (@initialState unit nat)
              (Service.mkState ∅ false ∅) Service.WorkerTimeout 1))
      Service.WorkerStalls 2
    = (Done tt, st2,
       snd (initialize scenarioA (@initialState unit nat)
              (Service.mkState ∅ false ∅) Service.WorkerTimeout 1))
    /\ allWords st2
       = allWords (snd (fst (initialize scenarioA (@initialState unit nat)
                               (Service.mkState ∅ false ∅) Service.WorkerTimeout 1)))
    /\ isInitialized st2 = true
    /\ wordAnalysisCache st2 = ∅
    /\ lastRefreshed st2 = Some 2.
Proof.
  apply (refresh_keeps_first_analysis scenarioA initialState _
           (Service.mkState ∅ false ∅) _ Service.WorkerTimeout Service.WorkerStalls 1 2).
  - reflexivity.
  - vm_compute. reflexivity.
Defined.

Lemma store_search_settles_witness :
  hasSearched
    (snd (fst (searchWords scenarioA (@initialState unit nat)
                 (Service.mkState ∅ false ∅) Service.WorkerTimeout 1
                 (Service.mkSearchOptions "dog" Service.Exact
                    (Service.mkFilters 0 false [] [])))))
  = true.
Proof.
  destruct (searchWords scenarioA (@initialState unit nat)
              (Service.mkState ∅ false ∅) Service.WorkerTimeout 1
              (Service.mkSearchOptions "dog" Service.Exact
                 (Service.mkFilters 0 false [] [])))
    as [[o st'] service'] eqn:E.
  apply (store_search_settles _ _ _ _ _ _ _ _ _ E).
Defined.

End StoreScenarios.

(** ** src/utils/featureGates.ts *)

Section FeatureGateFacts.
Import Js FeatureGates.

Lemma find_by_key {A} (key : A -> jsstring) (l : list A) (g : A) :
  List.NoDup (List.map key l) -> In g l ->
  List.find (fun f => streq (key f) (key g)) l = Some g.
Proof.
  induction l as [|x l IH]; simpl; [tauto|].
  intros Hnd Hin. inversion Hnd as [|? ? Hx Hl]; subst.
  destruct Hin as [ -> | Hin ]; [rewrite streq_refl; reflexivity|].
  destruct (streq (key x) (key g)) eqn:E; [|exact (IH Hl Hin)].
  apply streq_true in E. exfalso. apply Hx. rewrite E.
  apply List.in_map, Hin.
Qed.

Lemma gate_ids_distinct : List.NoDup (List.map fg_id FEATURE_GATES).
Proof.
  apply NoDup_ListNoDup.
  apply (bool_decide_unpack (NoDup (List.map fg_id FEATURE_GATES))).
  vm_compute. exact I.
Qed.

Lemma gates_are_pro :
  Forall (fun feature => fg_tier feature = [Pro]) FEATURE_GATES.
Proof. repeat constructor. Qed.

(** X26: what the tiers unlock.  The pro tier has every feature.  The free
    tier has exactly the features that are no gate at all: an unknown
    feature id is allowed, every listed one is refused.  For a listed
    feature [isFeatureAvailable] agrees with [getAvailableFeatures]. *)
Theorem feature_availability :
  (forall featureId, isFeatureAvailable featureId Pro = true)
  /\ (forall featureId,
        isFeatureAvailable featureId Free = true
        <-> ~ In featureId (List.map fg_id FEATURE_GATES))
  /\ (forall feature tier,
        In feature FEATURE_GATES ->
        (isFeatureAvailable (fg_id feature) tier = true
         <-> In feature (getAvailableFeatures tier))).
Proof.
  pose proof gates_are_pro as Hpro. rewrite List.Forall_forall in Hpro.
  split; [|split].
  - intros featureId. unfold isFeatureAvailable.
    destruct (List.find _ FEATURE_GATES) as [feature|] eqn:Ef; [|reflexivity].
    apply List.find_some in Ef as [Hin _]. rewrite (Hpro _ Hin). reflexivity.
  - intros featureId. unfold isFeatureAvailable.
    destruct (List.find _ FEATURE_GATES) as [feature|] eqn:Ef.
    + apply List.find_some in Ef as [Hin Hid]. apply streq_true in Hid.
      rewrite (Hpro _ Hin). cbn [existsb sameTier orb]. split; [discriminate|].
      intros Hnot. exfalso. apply Hnot. rewrite <- Hid. apply List.in_map, Hin.
    + split; [|reflexivity]. intros _ Hin.
      apply List.in_map_iff in Hin as (feature & Hid & Hin).
      apply (List.find_none _ _ Ef) in Hin. cbv beta in Hin.
      rewrite Hid, streq_refl in Hin. discriminate.
  - intros feature tier Hin. unfold isFeatureAvailable, getAvailableFeatures.
    rewrite (find_by_key fg_id FEATURE_GATES feature gate_ids_distinct Hin).
    rewrite List.filter_In. tauto.
Qed.

Lemma feature_availability_witness :
  isFeatureAvailable "export_pdf" Pro = true
  <-> In (gate "export_pdf" "export") (getAvailableFeatures Pro).
Proof.
  apply (proj2 (proj2 feature_availability) (gate "export_pdf" "export") Pro).
  vm_compute. tauto.
Defined.

Lemma getUsageLimit_nonnegative featureId tier limit :
  getUsageLimit featureId tier = Some limit -> (0 <= limit)%Z.
Proof.
  unfold getUsageLimit.
  destruct (streq featureId "articles");
    [|destruct (streq featureId "highlights");
      [|destruct (streq featureId "searches");
        [|destruct (streq featureId "exports");
          [|destruct (streq featureId "api_calls")]]]];
    destruct tier; cbn; intros H; inversion H; lia.
Qed.

(** X27: usage limits.  A usage is within the limit exactly when there is
    no limit or something remains; what remains is never negative and
    never more than the limit; whatever the free tier allows the pro tier
    allows; a feature without a free limit has no pro limit; and on the
    free tier no usage from 0 on is within the limit of exports. *)
Theorem usage_limits (featureId : jsstring) (tier : SubscriptionTier) (currentUsage : Z) :
  (isWithinUsageLimit featureId tier currentUsage = true
   <-> match getRemainingUsage featureId tier currentUsage with
       | None => True
       | Some remaining => (0 < remaining)%Z
       end)
  /\ (forall remaining limit,
        getRemainingUsage featureId tier currentUsage = Some remaining ->
        getUsageLimit featureId tier = Some limit ->
        (0 <= remaining)%Z /\ ((0 <= currentUsage)%Z -> (remaining <= limit)%Z))
  /\ (isWithinUsageLimit featureId Free currentUsage = true ->
      isWithinUsageLimit featureId Pro currentUsage = true)
  /\ (getUsageLimit featureId Free = None -> getUsageLimit featureId Pro = None)
  /\ ((0 <= currentUsage)%Z -> isWithinUsageLimit "exports" Free currentUsage = false).
Proof.
  split; [|split; [|split; [|split]]].
  - unfold isWithinUsageLimit, getRemainingUsage.
    destruct (getUsageLimit featureId tier) as [limit|]; [|tauto].
    rewrite Z.ltb_lt. lia.
  - unfold getRemainingUsage. intros remaining limit H1 H2.
    pose proof (getUsageLimit_nonnegative featureId tier limit H2).
    rewrite H2 in H1. inversion H1; subst. lia.
  - unfold isWithinUsageLimit, getUsageLimit.
    destruct (streq featureId "articles"); [reflexivity|].
    destruct (streq featureId "highlights"); [reflexivity|].
    destruct (streq featureId "searches"); [reflexivity|].
    destruct (streq featureId "exports"); [reflexivity|].
    destruct (streq featureId "api_calls"); [|reflexivity].
    cbn. rewrite !Z.ltb_lt. lia.
  - unfold getUsageLimit.
    destruct (streq featureId "articles"); [discriminate|].
    destruct (streq featureId "highlights"); [discriminate|].
    destruct (streq featureId "searches"); [discriminate|].
    destruct (streq featureId "exports"); [discriminate|].
    destruct (streq featureId "api_calls"); [discriminate|reflexivity].
  - intros Hu. change (isWithinUsageLimit "exports" Free currentUsage)
      with (currentUsage <? 0)%Z. apply Z.ltb_ge. exact Hu.
Qed.

Lemma usage_limits_witness :
  isWithinUsageLimit "api_calls" Pro 7 = true
  /\ isWithinUsageLimit "exports" Free 0 = false.
Proof.
  split.
  - apply (usage_limits "api_calls" Free 7). reflexivity.
  - apply (usage_limits "searches" Free 0). lia.
Defined.

End FeatureGateFacts.

(** ** Syllables *)

Section SyllableFacts.
Import Js Sentences.



End SyllableFacts.

Section MoreScenarios.
Import Js Stemmer Stemming Store.

Lemma groupByStem_partitions_witness :
  JsMap.get (groupByStem [lit "running"; lit "cats"; lit "runs"]) "run"
  = Some [lit "running"; lit "runs"].
Proof.
  destruct (groupByStem_partitions [lit "running"; lit "cats"; lit "runs"])
    as (_ & _ & H).
  destruct (H "run" [lit "running"; lit "runs"]) as [Hgroup _].
  - vm_compute. tauto.
  - vm_compute. reflexivity.
Defined.

Lemma getWordVariations_distinct_witness :
  In (stemWord "running" ++ lit "ing") (getWordVariations "running").
Proof.
  destruct (getWordVariations_distinct "running") as (_ & _ & _ & H).
  apply (H "ing"). vm_compute. tauto.
Defined.

Lemma levenshteinDistance_is_a_distance_witness :
  levenshteinDistance "kitten" "kitten" = 0.
Proof.
  exact (proj2 (proj1 (levenshteinDistance_is_a_distance "kitten" "kitten")) eq_refl).
Defined.

End MoreScenarios.
